(** * NearEarthObjects: linking, lookup, query and serialisation

    A shallow embedding of [models.py] and [database.py].

    Python objects are mutable and shared: a [NearEarthObject] holds the
    list of its [CloseApproach]es and every [CloseApproach] points back to
    its [NearEarthObject].  Objects therefore live in a store and are
    named by their identity; fields holding objects hold identities. *)

From Stdlib Require Import ZArith Floats.SpecFloat.
From stdpp Require Import gmap strings list pretty.

Local Open Scope string_scope.
Local Open Scope list_scope.
Local Set Warnings "-register-all".

(** ** Python values and exceptions *)

(** The scalars a raw record can carry into a constructor, and that a
    caller can pass as a lookup key or as an output kind. *)
Inductive PyVal :=
  | VNone
  | VBool (b : bool)
  | VInt (z : Z)
  | VStr (s : string).

Inductive PyExn :=
  | AttributeError
  | TypeError
  | ValueError
  | Exception.

(** The class name an exception is reported under. *)
Definition exn_class (e : PyExn) : string :=
  match e with
  | AttributeError => "AttributeError"
  | TypeError => "TypeError"
  | ValueError => "ValueError"
  | Exception => "Exception"
  end.

Inductive result (A : Type) :=
  | Ok (a : A)
  | Raise (e : PyExn).
Arguments Ok {A} a.
Arguments Raise {A} e.

(** [str(v)] *)
Definition py_str (v : PyVal) : string :=
  match v with
  | VNone => "None"
  | VBool true => "True"
  | VBool false => "False"
  | VInt z => pretty z
  | VStr s => s
  end.

(** Truth value of [v], as tested by [not v] and by [x or y]. *)
Definition py_truthy (v : PyVal) : bool :=
  match v with
  | VNone => false
  | VBool b => b
  | VInt z => negb (Z.eqb z 0)
  | VStr s => negb (String.eqb s "")
  end.

(** [v == lit] for a string literal [lit]: no other scalar equals a string. *)
Definition py_eq_str (v : PyVal) (lit : string) : bool :=
  match v with
  | VStr s => String.eqb s lit
  | _ => false
  end.

(** ** Objects *)

(** Python floats are IEEE 754 binary64 numbers. *)
Abbreviation pyfloat := spec_float.
Definition float_nan : pyfloat := S754_nan.

(** A naive [datetime] with minute resolution. *)
Record datetime := mkDatetime {
  year : Z; month : Z; day : Z; hour : Z; minute : Z
}.

(** Object identity. *)
Abbreviation loc := nat.

Record NearEarthObject := mkNearEarthObject {
  designation : string;
  name : option string;
  hazardous : bool;
  diameter : pyfloat;
  approaches : list loc
}.

(** What [CloseApproach.neo] holds: [None], the designation string put
    there by the constructor, or the linked [NearEarthObject]. *)
Inductive NeoField :=
  | NeoNone
  | NeoDes (s : string)
  | NeoRef (n : loc).

Record CloseApproach := mkCloseApproach {
  _designation : string;
  time : datetime;
  distance : pyfloat;
  velocity : pyfloat;
  neo : NeoField
}.

Record Heap := mkHeap {
  neo_objs : gmap loc NearEarthObject;
  ca_objs : gmap loc CloseApproach
}.

(** ** State and exceptions *)

Definition M (A : Type) : Type := Heap -> result (A * Heap).

Definition ret {A} (a : A) : M A := fun h => Ok (a, h).

Definition bind {A B} (m : M A) (k : A -> M B) : M B :=
  fun h =>
    match m h with
    | Ok (a, h') => k a h'
    | Raise e => Raise e
    end.

Notation "x <- m ;; k" := (bind m (fun x => k))
  (at level 100, m at next level, right associativity).
Notation "m ;;; k" := (bind m (fun _ => k))
  (at level 100, right associativity).

(** Attribute access on an object that is not of the expected class. *)
Definition get_neo (n : loc) : M NearEarthObject :=
  fun h =>
    match neo_objs h !! n with
    | Some o => Ok (o, h)
    | None => Raise AttributeError
    end.

Definition get_ca (a : loc) : M CloseApproach :=
  fun h =>
    match ca_objs h !! a with
    | Some o => Ok (o, h)
    | None => Raise AttributeError
    end.

Definition with_neo (v : NeoField) (o : CloseApproach) : CloseApproach :=
  {| _designation := _designation o; time := time o;
     distance := distance o; velocity := velocity o; neo := v |}.

Definition with_appended (a : loc) (o : NearEarthObject) : NearEarthObject :=
  {| designation := designation o; name := name o;
     hazardous := hazardous o; diameter := diameter o;
     approaches := approaches o ++ [a] |}.

(** [self.neo = v] *)
Definition set_neo (self : loc) (v : NeoField) : M unit :=
  o <- get_ca self ;;
  fun h =>
    Ok (tt, {| neo_objs := neo_objs h;
               ca_objs := <[self := with_neo v o]> (ca_objs h) |}).

(** [n.approaches.append(a)] *)
Definition append_approach (n : loc) (a : loc) : M unit :=
  o <- get_neo n ;;
  fun h =>
    Ok (tt, {| neo_objs := <[n := with_appended a o]> (neo_objs h);
               ca_objs := ca_objs h |}).

Fixpoint mapM {A B} (f : A -> M B) (l : list A) : M (list B) :=
  match l with
  | [] => ret []
  | x :: l' => y <- f x ;; ys <- mapM f l' ;; ret (y :: ys)
  end.

(** ** models.py *)

Section Constructors.

(** The built-in [float] and the function [helpers.cd_to_datetime]
    (the module [helpers] is imported by [models.py]); both may raise. *)
Variable py_float : PyVal -> result pyfloat.
Variable cd_to_datetime : PyVal -> result datetime.

(** [handle_hazard] inside [NearEarthObject.__init__]. *)
Definition handle_hazard (pha : PyVal) : bool :=
  if py_eq_str pha "Y" then true else false.

(** [validate_dia] inside [NearEarthObject.__init__]. *)
Definition validate_dia (diameter : PyVal) : result bool :=
  if negb (py_truthy diameter) then Raise Exception else Ok true.

(** [NearEarthObject.__init__]: the fields of the new object. *)
Definition NearEarthObject_init (pdes name pha diameter : PyVal)
  : NearEarthObject :=
  {| designation := py_str pdes;
     (* str(name) or None *)
     name := if py_truthy (VStr (py_str name))
             then Some (py_str name) else None;
     hazardous := handle_hazard pha;
     (* try: ... except: self.diameter = float('NaN') *)
     diameter :=
       match validate_dia diameter with
       | Ok true =>
           match py_float diameter with
           | Ok d => d
           | Raise _ => float_nan
           end
       | Ok false => float_nan
       | Raise _ => float_nan
       end;
     approaches := [] |}.

(** [validate_des] inside [CloseApproach.__init__]. *)
Definition validate_des (des : PyVal) : result bool :=
  if negb (py_truthy des) then Raise Exception else Ok true.

(** [CloseApproach.__init__]: the fields of the new object, or the
    exception a conversion raised. *)
Definition CloseApproach_init (des cd dist v_rel : PyVal)
  : result CloseApproach :=
  match cd_to_datetime cd with
  | Raise e => Raise e
  | Ok t =>
    match py_float dist with
    | Raise e => Raise e
    | Ok d =>
      match py_float v_rel with
      | Raise e => Raise e
      | Ok v =>
          Ok {| _designation := py_str des;
                time := t; distance := d; velocity := v;
                neo := match validate_des des with
                       | Ok true => NeoDes (py_str des)
                       | Ok false => NeoNone
                       | Raise _ => NeoNone
                       end |}
      end
    end
  end.

End Constructors.

(** [CloseApproach.link_neo]; [neos] is the dictionary from designation
    to [NearEarthObject]. *)
Definition link_neo (self : loc) (neos : gmap string loc) : M loc :=
  o <- get_ca self ;;
  match neos !! _designation o with
  | Some n =>
      set_neo self (NeoRef n) ;;;
      (* self.neo.approaches.append(self) *)
      append_approach n self ;;;
      ret self
  | None =>
      set_neo self NeoNone ;;;
      ret self
  end.

(** The values a serialised record holds; a [dict] literal keeps the
    order in which its keys are written. *)
Inductive SerVal :=
  | SNone
  | SBool (b : bool)
  | SFloat (f : pyfloat)
  | SStr (s : string)
  | SDict (d : list (string * SerVal)).

Section Serialisation.

(** [helpers.datetime_to_str]. *)
Variable datetime_to_str : datetime -> string.

(** The property [CloseApproach.time_str]. *)
Definition time_str (o : CloseApproach) : string :=
  datetime_to_str (time o).

Definition ser_name (o : option string) : SerVal :=
  match o with
  | Some s => SStr s
  | None => SNone
  end.

(** [self.neo.<attribute>]: only a [NearEarthObject] has the attributes
    read by [serialize]; [None] and [str] have none of them. *)
Definition neo_of (h : Heap) (o : CloseApproach) : result NearEarthObject :=
  match neo o with
  | NeoRef n =>
      match neo_objs h !! n with
      | Some b => Ok b
      | None => Raise AttributeError
      end
  | NeoNone => Raise AttributeError
  | NeoDes _ => Raise AttributeError
  end.

(** [CloseApproach.serialize]. *)
Definition serialize (h : Heap) (self : loc) (extension : PyVal)
  : result SerVal :=
  match ca_objs h !! self with
  | None => Raise AttributeError
  | Some o =>
    if py_eq_str extension "csv" then
      match neo_of h o with
      | Raise e => Raise e
      | Ok b =>
          Ok (SDict [("datetime_utc", SStr (time_str o));
                     ("distance_au", SFloat (distance o));
                     ("velocity_km_s", SFloat (velocity o));
                     ("designation", SStr (designation b));
                     ("name", ser_name (name b));
                     ("diameter_km", SFloat (diameter b));
                     ("potentially_hazardous", SBool (hazardous b))])
      end
    else if py_eq_str extension "json" then
      match neo_of h o with
      | Raise e => Raise e
      | Ok b =>
          Ok (SDict [("datetime_utc", SStr (time_str o));
                     ("distance_au", SFloat (distance o));
                     ("velocity_km_s", SFloat (velocity o));
                     ("neo",
                      SDict [("designation", SStr (designation b));
                             ("name", ser_name (name b));
                             ("diameter_km", SFloat (diameter b));
                             ("potentially_hazardous",
                              SBool (hazardous b))])])
      end
    else if negb (py_eq_str extension "csv" || py_eq_str extension "json")
    then Raise ValueError
    else Ok SNone
  end.

End Serialisation.

(** ** database.py *)

Record NEODatabase := mkNEODatabase {
  neo_by_name : gmap (option string) loc;
  neo_by_designation : gmap string loc;
  _approaches : list loc;
  _neos : list NeoField
}.

(** [{key(i): i for i in neos}], filled from left to right. *)
Fixpoint dict_comp {K} `{Countable K} (key : NearEarthObject -> K)
    (neos : list loc) (acc : gmap K loc) : M (gmap K loc) :=
  match neos with
  | [] => ret acc
  | i :: rest =>
      o <- get_neo i ;;
      dict_comp key rest (<[key o := i]> acc)
  end.

(** [NEODatabase.__init__] *)
Definition NEODatabase_init (neos approaches : list loc) : M NEODatabase :=
  by_name <- dict_comp name neos ∅ ;;
  by_des <- dict_comp designation neos ∅ ;;
  linked <- mapM (fun i => link_neo i by_des) approaches ;;
  linked_neos <- mapM (fun i => o <- get_ca i ;; ret (neo o)) linked ;;
  ret {| neo_by_name := by_name;
         neo_by_designation := by_des;
         _approaches := linked;
         _neos := linked_neos |}.

(** [NEODatabase.get_neo_by_designation]; a key that is not a string
    equals no designation. *)
Definition get_neo_by_designation (db : NEODatabase) (designation : PyVal)
  : option loc :=
  match designation with
  | VStr d =>
      if bool_decide (is_Some (neo_by_designation db !! d))
      then neo_by_designation db !! d
      else None
  | _ => None
  end.

(** The key of the name dictionary a Python value is equal to: the keys
    are names, that is strings or [None]. *)
Definition name_key (v : PyVal) : option (option string) :=
  match v with
  | VNone => Some None
  | VStr s => Some (Some s)
  | _ => None
  end.

(** [NEODatabase.get_neo_by_name] *)
Definition get_neo_by_name (db : NEODatabase) (name : PyVal) : option loc :=
  match name_key name with
  | Some k =>
      if bool_decide (is_Some (neo_by_name db !! k))
      then neo_by_name db !! k
      else None
  | None => None
  end.

(** *** Iterators

    [query] stacks one built-in [filter] object per predicate on top of
    the iterator of the stored list.  Predicates are pure, so a call of a
    predicate is visible only through the log of calls kept here: the
    event [(k, a)] is the call of the predicate at position [k] of the
    supplied collection on the approach [a]. *)

Abbreviation Predicate := (loc -> bool).
Abbreviation Event := (nat * loc)%type.

Inductive PyIter :=
  | ListIter (l : list loc) (pos : nat)
  | FilterIter (k : nat) (f : Predicate) (src : PyIter).

(** [next(it)] with a bound on the number of nested calls: the element
    produced ([None] when the iterator is exhausted), the iterator
    afterwards and the predicate calls made.  The outer [None] means the
    bound was too small. *)
Fixpoint iter_next (fuel : nat) (it : PyIter)
  : option (option loc * PyIter * list Event) :=
  match fuel with
  | 0 => None
  | S fuel' =>
    match it with
    | ListIter l pos =>
        match l !! pos with
        | Some a => Some (Some a, ListIter l (S pos), [])
        | None => Some (None, ListIter l pos, [])
        end
    | FilterIter k f src =>
        match iter_next fuel' src with
        | None => None
        | Some (None, src', t) => Some (None, FilterIter k f src', t)
        | Some (Some a, src', t) =>
            if f a
            then Some (Some a, FilterIter k f src', t ++ [(k, a)])
            else
              match iter_next fuel' (FilterIter k f src') with
              | None => None
              | Some (r, it', t') => Some (r, it', t ++ (k, a) :: t')
              end
        end
    end
  end.

(** Elements the underlying list iterator has not produced yet. *)
Fixpoint iter_rest (it : PyIter) : list loc :=
  match it with
  | ListIter l pos => drop pos l
  | FilterIter _ _ src => iter_rest src
  end.

Fixpoint iter_depth (it : PyIter) : nat :=
  match it with
  | ListIter _ _ => 0
  | FilterIter _ _ src => S (iter_depth src)
  end.

(** A bound that always suffices for one [next]. *)
Definition iter_fuel (it : PyIter) : nat :=
  S (iter_depth it + length (iter_rest it)).

Definition py_next (it : PyIter) : option (option loc * PyIter * list Event) :=
  iter_next (iter_fuel it) it.

(** The loop [for _filter in filters: approaches = filter(_filter,
    approaches)]; [k] is the position of the next predicate. *)
Fixpoint apply_filters (k : nat) (filters : list Predicate)
    (approaches : PyIter) : PyIter :=
  match filters with
  | [] => approaches
  | _filter :: rest =>
      apply_filters (S k) rest (FilterIter k _filter approaches)
  end.

(** *** Generators

    [query] is a generator function: a call creates a generator object
    and runs nothing of the body; the body runs up to its next [yield]
    each time the consumer asks for an element.  Generator objects live
    in a store of their own, named by their position in it. *)

Inductive GenState :=
  | GenCreated (db : NEODatabase) (filters : list Predicate)
  | GenSuspended (approaches : PyIter)
  | GenDone.

Abbreviation Gens := (list GenState).

(** [NEODatabase.query]: the call itself. *)
Definition query (db : NEODatabase) (filters : list Predicate) (gs : Gens)
  : loc * Gens :=
  (length gs, gs ++ [GenCreated db filters]).

(** The body of [query] up to the [for approach in approaches] loop. *)
Definition query_body (db : NEODatabase) (filters : list Predicate) : PyIter :=
  let approaches := ListIter (_approaches db) 0 in
  if negb (bool_decide (filters = []))
  then apply_filters 0 filters approaches
  else approaches.

(** The iterator a generator draws from when it is asked for an element:
    a new generator first runs the body of [query] up to the loop, a
    suspended one resumes in the loop, a finished one has none. *)
Definition gen_iter (st : GenState) : option PyIter :=
  match st with
  | GenCreated db filters => Some (query_body db filters)
  | GenSuspended it => Some it
  | GenDone => None
  end.

(** [next(g)] for a generator made by [query]: the element yielded
    ([None] for [StopIteration]), the predicate calls made and the store
    afterwards.  The outer [None] means [g] names no generator. *)
Definition gen_next (g : loc) (gs : Gens)
  : option (option loc * list Event * Gens) :=
  match gs !! g with
  | None => None
  | Some st =>
      match gen_iter st with
      | None => Some (None, [], gs)
      | Some it =>
          match py_next it with
          | None => None
          | Some (Some a, it', t) =>
              Some (Some a, t, <[g := GenSuspended it']> gs)
          | Some (None, it', t) => Some (None, t, <[g := GenDone]> gs)
          end
      end
  end.

(** [list(g)]: ask for elements until [StopIteration], at most [fuel]
    times. *)
Fixpoint consume (fuel : nat) (g : loc) (gs : Gens)
  : option (list loc * list Event * Gens) :=
  match fuel with
  | 0 => None
  | S fuel' =>
      match gen_next g gs with
      | None => None
      | Some (None, t, gs') => Some ([], t, gs')
      | Some (Some a, t, gs') =>
          match consume fuel' g gs' with
          | None => None
          | Some (out, t', gs'') => Some (a :: out, t ++ t', gs'')
          end
      end
  end.

(** *** What a query is expected to do

    The predicates applied to one approach in the supplied order, up to
    and including the first that returns false. *)
Fixpoint eval_filters (k : nat) (filters : list Predicate) (a : loc)
  : bool * list Event :=
  match filters with
  | [] => (true, [])
  | f :: rest =>
      if f a
      then let '(b, t) := eval_filters (S k) rest a in (b, (k, a) :: t)
      else (false, [(k, a)])
  end.

(** ** Vocabulary of the statements *)

(** The [NearEarthObject] the dictionary [neos] associates with the
    approach [a], through its [_designation]. *)
Definition target (neos : gmap string loc) (h : Heap) (a : loc) : option loc :=
  match ca_objs h !! a with
  | Some o => neos !! _designation o
  | None => None
  end.

(** What [link_neo] stores in [self.neo]. *)
Definition field_of (t : option loc) : NeoField :=
  match t with
  | Some n => NeoRef n
  | None => NeoNone
  end.

Definition with_approaches (l : list loc) (o : NearEarthObject)
  : NearEarthObject :=
  {| designation := designation o; name := name o;
     hazardous := hazardous o; diameter := diameter o;
     approaches := l |}.

(** The approaches of [l], in order, that [neos] associates with [n]. *)
Definition linked_of (neos : gmap string loc) (h : Heap) (n : loc)
    (l : list loc) : list loc :=
  filter (fun a => target neos h a = Some n) l.

(** The state of the approach [a], which was [o], once the approaches
    of [l] have been linked. *)
Definition relink (neos : gmap string loc) (h : Heap) (l : list loc)
    (a : loc) (o : CloseApproach) : CloseApproach :=
  if decide (a ∈ l) then with_neo (field_of (target neos h a)) o else o.

(** The state of the body [n], which was [b], once the approaches of [l]
    have been linked. *)
Definition relinked_body (neos : gmap string loc) (h : Heap) (l : list loc)
    (n : loc) (b : NearEarthObject) : NearEarthObject :=
  with_approaches (approaches b ++ linked_of neos h n l) b.

(** Number of times [a] occurs in [l]. *)
Definition occurrences (a : loc) (l : list loc) : nat :=
  length (filter (fun x => x = a) l).

(** The inputs of [NEODatabase.__init__] are objects of the right
    classes. *)
Definition well_typed (h : Heap) (neos approaches : list loc) : Prop :=
  Forall (fun n => is_Some (neo_objs h !! n)) neos /\
  Forall (fun a => is_Some (ca_objs h !! a)) approaches.

(** The precondition of [NEODatabase.__init__] on the bodies: no body
    has approaches yet. *)
Definition unlinked (h : Heap) (neos : list loc) : Prop :=
  Forall (fun n => approaches <$> neo_objs h !! n = Some []) neos.

(** What the stack of filters [it] does with one element: whether the
    element comes out at the top, and the predicate calls made. *)
Fixpoint iter_eval (it : PyIter) (a : loc) : bool * list Event :=
  match it with
  | ListIter _ _ => (true, [])
  | FilterIter k f src =>
      let '(b, t) := iter_eval src a in
      if b then (f a, t ++ [(k, a)]) else (false, t)
  end.

(** The iterator [it] once its list iterator has produced [c] more
    elements. *)
Fixpoint advance (c : nat) (it : PyIter) : PyIter :=
  match it with
  | ListIter l pos => ListIter l (pos + c)
  | FilterIter k f src => FilterIter k f (advance c src)
  end.

(** One [next] over the elements [rest] still to come, each judged by
    [ev]: the element produced, the number of elements used up and the
    predicate calls made. *)
Fixpoint scan (ev : loc -> bool * list Event) (rest : list loc)
  : option loc * nat * list Event :=
  match rest with
  | [] => (None, 0, [])
  | a :: rest' =>
      let '(b, t) := ev a in
      if b then (Some a, 1, t)
      else let '(r, c, t') := scan ev rest' in (r, S c, t ++ t')
  end.

(** Number of predicates at the head of [filters] that hold of [a]. *)
Fixpoint leading_true (filters : list Predicate) (a : loc) : nat :=
  match filters with
  | [] => 0
  | f :: rest => if f a then S (leading_true rest a) else 0
  end.

(** An operation fails with an exception of class [cls]. *)
Definition fails_with {A} (cls : string) (r : result A) : Prop :=
  exists e, r = Raise e /\ exn_class e = cls.

(** ** A concrete data set *)

Module Scenario.

Definition pad2 (z : Z) : string :=
  if (z <? 10)%Z then ("0" +:+ pretty z)%string else pretty z.

(** Modelled from the spec: [helpers.datetime_to_str] is not in the
    source tree; the time is written as year-month-day hour:minute,
    in digits, without seconds. *)
Definition datetime_to_str (t : datetime) : string :=
  (pretty (year t) +:+ "-" +:+ pad2 (month t) +:+ "-" +:+ pad2 (day t)
   +:+ " " +:+ pad2 (hour t) +:+ ":" +:+ pad2 (minute t))%string.

(** 16.84, 0.15 and 17.06 as binary64 numbers. *)
Definition f_16_84 : pyfloat := S754_finite false 4740038607807447 (-48).
Definition f_0_15 : pyfloat := S754_finite false 5404319552844595 (-55).
Definition f_17_06 : pyfloat := S754_finite false 4801963102683791 (-48).

Definition eros : NearEarthObject :=
  {| designation := "2000433"; name := Some "Eros"; hazardous := false;
     diameter := f_16_84; approaches := [] |}.

Definition unnamed : NearEarthObject :=
  {| designation := "2019 SC8"; name := None; hazardous := false;
     diameter := float_nan; approaches := [] |}.

Definition t_1900 : datetime :=
  {| year := 1900; month := 12; day := 27; hour := 1; minute := 30 |}.

Definition ca_eros : CloseApproach :=
  {| _designation := "2000433"; time := t_1900; distance := f_0_15;
     velocity := f_17_06; neo := NeoDes "2000433" |}.

Definition ca_unknown : CloseApproach :=
  {| _designation := "UNKNOWN-ID"; time := t_1900; distance := f_0_15;
     velocity := f_17_06; neo := NeoDes "UNKNOWN-ID" |}.

(** Bodies at 1 and 2, approaches at 11 and 12. *)
Definition heap0 : Heap :=
  {| neo_objs := <[1 := eros]> (<[2 := unnamed]> ∅);
     ca_objs := <[11 := ca_eros]> (<[12 := ca_unknown]> ∅) |}.

Definition bodies : list loc := [1; 2].
Definition events : list loc := [11; 12].

(** The data set as [NEODatabase.__init__] leaves it, and the
    database it builds. *)
Definition heap1 : Heap :=
  {| neo_objs := <[1 := with_appended 11 eros]> (<[2 := unnamed]> ∅);
     ca_objs := <[11 := with_neo (NeoRef 1) ca_eros]>
                  (<[12 := with_neo NeoNone ca_unknown]> ∅) |}.

Definition db1 : NEODatabase :=
  {| neo_by_name := <[Some "Eros" := 1]> (<[None := 2]> ∅);
     neo_by_designation := <["2000433" := 1]> (<["2019 SC8" := 2]> ∅);
     _approaches := [11; 12];
     _neos := [NeoRef 1; NeoNone] |}.

(** Two predicates over the approaches of [heap0]. *)
Definition always : Predicate := fun _ => true.
Definition is_eros : Predicate := fun a => Nat.eqb a 11.

End Scenario.

(** A data set in which two bodies have the same designation. *)
Module Shadowing.

Definition eros_again : NearEarthObject :=
  {| designation := "2000433"; name := Some "Eros"; hazardous := false;
     diameter := float_nan; approaches := [] |}.

(** Bodies at 1 and 3, the approaches of [Scenario.heap0]. *)
Definition heap0 : Heap :=
  {| neo_objs := <[1 := Scenario.eros]> (<[3 := eros_again]> ∅);
     ca_objs := ca_objs Scenario.heap0 |}.

Definition bodies : list loc := [1; 3].

End Shadowing.

(** ** The rest of models.py *)

(** The property [NearEarthObject.fullname]. *)
Definition fullname (o : NearEarthObject) : string :=
  match name o with
  | Some n => (designation o +:+ " " +:+ n)%string
  | None => designation o
  end.

(** [math.isnan] *)
Definition isnan (f : pyfloat) : bool :=
  match f with
  | S754_nan => true
  | _ => false
  end.

Section Formatting.

(** [format(x, '.3f')], the conversion behind [{self.diameter:.3f}]. *)
Variable fmt3 : pyfloat -> string.

(** The property [NearEarthObject.known_diameter]. *)
Definition known_diameter (o : NearEarthObject) : string :=
  if isnan (diameter o)
  then "an unknown diameter"
  else ("a diameter of " +:+ fmt3 (diameter o) +:+ " km")%string.

(** What the two texts of [NearEarthObject.__str__] have in common. *)
Definition NearEarthObject_str_head (o : NearEarthObject) : string :=
  ("A Near Earth Object (NEO), " +:+ fullname o +:+ ", has "
   +:+ known_diameter o)%string.

(** [NearEarthObject.__str__] *)
Definition NearEarthObject_str (o : NearEarthObject) : string :=
  if hazardous o
  then (NearEarthObject_str_head o
        +:+ " and is potentially hazardous.")%string
  else (NearEarthObject_str_head o
        +:+ " and is not potentially hazardous.")%string.

End Formatting.

(** ** write.py *)

(** [d.get(k)] on a serialised record. *)
Fixpoint assoc_get (k : string) (d : list (string * SerVal)) : option SerVal :=
  match d with
  | [] => None
  | (k', v) :: rest => if String.eqb k' k then Some v else assoc_get k rest
  end.

(** The [fieldnames] of [write_to_csv]. *)
Definition fieldnames : list string :=
  ["datetime_utc"; "distance_au"; "velocity_km_s"; "designation"; "name";
   "diameter_km"; "potentially_hazardous"].

(** The cells [csv.DictWriter.writerow] makes of a record, with
    [extrasaction='raise']: a key outside the field names raises
    [ValueError]; a field the record lacks gets [restval]. *)
Definition dict_to_list (fields : list string) (restval : SerVal)
    (row : SerVal) : result (list SerVal) :=
  match row with
  | SDict d =>
      if forallb (fun kv => bool_decide (kv.1 ∈ fields)) d
      then Ok ((fun k => default restval (assoc_get k d)) <$> fields)
      else Raise ValueError
  | _ => Raise AttributeError
  end.

Section Writers.

Variable datetime_to_str : datetime -> string.

(** The loop of [write_to_csv]: the rows in the file so far, and how
    the loop ends. *)
Fixpoint write_rows (h : Heap) (results : list loc)
    (written : list (list SerVal)) : list (list SerVal) * result unit :=
  match results with
  | [] => (written, Ok tt)
  | row :: rest =>
      match serialize datetime_to_str h row (VStr "csv") with
      | Raise e => (written, Raise e)
      | Ok d =>
          match dict_to_list fieldnames (SStr "") d with
          | Raise e => (written, Raise e)
          | Ok cells => write_rows h rest (written ++ [cells])
          end
      end
  end.

(** [write_to_csv]: the file is opened, the header is written, then a
    row per result.  The rows of the file when the function returns or
    raises, and which of the two it does.  A row is kept as the values
    handed to the [csv] writer, which makes their text. *)
Definition write_to_csv (h : Heap) (results : list loc)
  : list (list SerVal) * result unit :=
  write_rows h results [SStr <$> fieldnames].

(** The loop of [write_to_json], which fills [json_data]. *)
Fixpoint collect_json (h : Heap) (results : list loc) (json_data : list SerVal)
  : result (list SerVal) :=
  match results with
  | [] => Ok json_data
  | row :: rest =>
      match serialize datetime_to_str h row (VStr "json") with
      | Raise e => Raise e
      | Ok d => collect_json h rest (json_data ++ [d])
      end
  end.

(** [write_to_json]: the file is opened only once [json_data] is
    complete.  The document in the file ([None] when the file was never
    opened), and whether the function returns or raises. *)
Definition write_to_json (h : Heap) (results : list loc)
  : option (list SerVal) * result unit :=
  match collect_json h results [] with
  | Ok json_data => (Some json_data, Ok tt)
  | Raise e => (None, Raise e)
  end.

End Writers.

(** ** More vocabulary *)

(** The last object of [neos] whose key is [k]: the entry a dictionary
    comprehension over [neos] has under [k]. *)
Fixpoint last_with {K} `{EqDecision K} (key : NearEarthObject -> K)
    (h : Heap) (k : K) (neos : list loc) : option loc :=
  match neos with
  | [] => None
  | i :: rest =>
      match last_with key h k rest with
      | Some n => Some n
      | None =>
          match neo_objs h !! i with
          | Some o => if decide (key o = k) then Some i else None
          | None => None
          end
      end
  end.

(** The [_designation] of the approach [a]. *)
Definition des_of (h : Heap) (a : loc) : option string :=
  _designation <$> ca_objs h !! a.

(** What [NEODatabase.__init__] makes of the store [h] and the
    collections [neos] and [events]: the database [db] and the store
    [h']. *)
Definition built (h : Heap) (neos events : list loc)
    (db : NEODatabase) (h' : Heap) : Prop :=
  _approaches db = events /\
  (forall d, neo_by_designation db !! d = last_with designation h d neos) /\
  (forall k, neo_by_name db !! k = last_with name h k neos) /\
  (forall n, neo_objs h' !! n =
     relinked_body (neo_by_designation db) h events n <$> neo_objs h !! n) /\
  (forall a, ca_objs h' !! a =
     relink (neo_by_designation db) h events a <$> ca_objs h !! a) /\
  _neos db = (fun a => field_of (target (neo_by_designation db) h a))
               <$> events.

(** The approach [a] has a [NearEarthObject] as its [neo]. *)
Definition linked_in (h : Heap) (a : loc) : Prop :=
  exists o n b,
    ca_objs h !! a = Some o /\ neo o = NeoRef n /\ neo_objs h !! n = Some b.

(** The approach [a] exists and its [neo] is no [NearEarthObject]. *)
Definition unlinked_in (h : Heap) (a : loc) : Prop :=
  exists o, ca_objs h !! a = Some o /\ forall n, neo o <> NeoRef n.

(** All the predicates of [filters] hold of [a]. *)
Definition all_hold (filters : list Predicate) (a : loc) : bool :=
  forallb (fun p => p a) filters.

(** * Properties *)

(** ** The monad *)

Lemma mapM_cons {A B} (f : A -> M B) x l h :
  mapM f (x :: l) h =
  match f x h with
  | Ok (y, h1) =>
      match mapM f l h1 with
      | Ok (ys, h2) => Ok (y :: ys, h2)
      | Raise e => Raise e
      end
  | Raise e => Raise e
  end.
Proof.
  simpl. unfold bind. destruct (f x h) as [[y h1]|e]; [|done].
  destruct (mapM f l h1) as [[ys h2]|e]; done.
Qed.

Lemma with_approaches_id o : with_approaches (approaches o) o = o.
Proof. by destruct o. Qed.

(** ** Linking one approach *)

Lemma link_neo_hit h a o n b (neos : gmap string loc) :
  ca_objs h !! a = Some o ->
  neos !! _designation o = Some n ->
  neo_objs h !! n = Some b ->
  link_neo a neos h =
    Ok (a, {| neo_objs := <[n := with_appended a b]> (neo_objs h);
              ca_objs := <[a := with_neo (NeoRef n) o]> (ca_objs h) |}).
Proof.
  intros Ha Hn Hb. unfold link_neo, bind, get_ca, set_neo, bind, get_ca.
  rewrite Ha, Hn. simpl. rewrite Ha. simpl.
  unfold append_approach, bind, get_neo, ret. simpl. by rewrite Hb.
Qed.

Lemma link_neo_miss h a o (neos : gmap string loc) :
  ca_objs h !! a = Some o ->
  neos !! _designation o = None ->
  link_neo a neos h =
    Ok (a, {| neo_objs := neo_objs h;
              ca_objs := <[a := with_neo NeoNone o]> (ca_objs h) |}).
Proof.
  intros Ha Hn. unfold link_neo, bind, get_ca, set_neo, bind, get_ca.
  rewrite Ha, Hn. simpl. by rewrite Ha.
Qed.

(** ** Linking a collection of approaches *)

Lemma target_insert_ca h nobjs a o v neos x :
  ca_objs h !! a = Some o ->
  target neos {| neo_objs := nobjs;
                 ca_objs := <[a := with_neo v o]> (ca_objs h) |} x
  = target neos h x.
Proof.
  intros Ha. unfold target. simpl.
  destruct (decide (a = x)) as [->|Hne].
  - by rewrite lookup_insert_eq, Ha.
  - by rewrite lookup_insert_ne.
Qed.

Lemma linked_of_ext neos h h1 n l :
  (forall x, target neos h1 x = target neos h x) ->
  linked_of neos h1 n l = linked_of neos h n l.
Proof.
  intros Ht. unfold linked_of. apply list_filter_iff. intros x.
  by rewrite Ht.
Qed.

Lemma relink_ext neos h h1 l a o :
  (forall x, target neos h1 x = target neos h x) ->
  relink neos h1 l a o = relink neos h l a o.
Proof. intros Ht. unfold relink. by rewrite Ht. Qed.

Lemma link_all_spec (neos : gmap string loc) l : forall h,
  Forall (fun a => is_Some (ca_objs h !! a)) l ->
  (forall d n, neos !! d = Some n -> is_Some (neo_objs h !! n)) ->
  exists h',
    mapM (fun i => link_neo i neos) l h = Ok (l, h') /\
    (forall n, neo_objs h' !! n = relinked_body neos h l n <$> neo_objs h !! n) /\
    (forall a, ca_objs h' !! a = relink neos h l a <$> ca_objs h !! a).
Proof.
  induction l as [|a l IH]; intros h Hca Hneo.
  - exists h. split; [done|]. split.
    + intros n. destruct (neo_objs h !! n) as [b|]; [|done]. simpl.
      unfold relinked_body, linked_of. simpl.
      by rewrite app_nil_r, with_approaches_id.
    + intros a. destruct (ca_objs h !! a) as [o|]; [|done]. simpl.
      unfold relink. case_decide; [set_solver|done].
  - apply Forall_cons in Hca as [[o Ho] Hca].
    destruct (neos !! _designation o) as [n|] eqn:Hn.
    + destruct (Hneo _ _ Hn) as [b Hb].
      pose proof (link_neo_hit h a o n b neos Ho Hn Hb) as Hlink.
      set (h1 := {| neo_objs := <[n := with_appended a b]> (neo_objs h);
                    ca_objs := <[a := with_neo (NeoRef n) o]> (ca_objs h) |})
        in *.
      assert (Ht : forall x, target neos h1 x = target neos h x)
        by (intros x; by apply target_insert_ca).
      destruct (IH h1) as (h' & Hrun & Hn' & Ha').
      { eapply Forall_impl; [exact Hca|]. intros x [ox Hx]. simpl.
        destruct (decide (a = x)) as [->|Hne].
        - rewrite lookup_insert_eq. eauto.
        - rewrite lookup_insert_ne by done. eauto. }
      { intros d m Hm. simpl. destruct (Hneo _ _ Hm) as [bm Hbm].
        destruct (decide (n = m)) as [->|Hne].
        - rewrite lookup_insert_eq. eauto.
        - rewrite lookup_insert_ne by done. eauto. }
      exists h'. rewrite mapM_cons, Hlink, Hrun. split; [done|].
      assert (Hta : target neos h a = Some n)
        by (unfold target; by rewrite Ho).
      split.
      * intros m. rewrite Hn'. simpl.
        unfold relinked_body. rewrite (linked_of_ext neos h h1) by done.
        unfold linked_of. rewrite filter_cons.
        destruct (decide (n = m)) as [->|Hne].
        -- rewrite lookup_insert_eq, Hb. simpl.
           rewrite decide_True by done.
           unfold with_approaches, with_appended. simpl.
           by rewrite <- app_assoc.
        -- rewrite lookup_insert_ne by done.
           rewrite decide_False by congruence. done.
      * intros x. rewrite Ha'. simpl.
        destruct (decide (a = x)) as [->|Hne].
        -- rewrite lookup_insert_eq, Ho. simpl. f_equal.
           unfold relink. rewrite Ht, Hta. simpl.
           rewrite (decide_True (P := x ∈ x :: l)) by (apply elem_of_cons; by left).
           by case_decide.
        -- rewrite lookup_insert_ne by done.
           destruct (ca_objs h !! x) as [ox|]; [|done]. simpl. f_equal.
           rewrite (relink_ext neos h h1) by done. unfold relink.
           destruct (decide (x ∈ l)) as [Hin|Hout].
           ++ rewrite decide_True; [done|]. apply elem_of_cons. by right.
           ++ rewrite decide_False; [done|]. rewrite elem_of_cons.
              by intros [?|?].
    + pose proof (link_neo_miss h a o neos Ho Hn) as Hlink.
      set (h1 := {| neo_objs := neo_objs h;
                    ca_objs := <[a := with_neo NeoNone o]> (ca_objs h) |})
        in *.
      assert (Ht : forall x, target neos h1 x = target neos h x)
        by (intros x; by apply target_insert_ca).
      destruct (IH h1) as (h' & Hrun & Hn' & Ha').
      { eapply Forall_impl; [exact Hca|]. intros x [ox Hx]. simpl.
        destruct (decide (a = x)) as [->|Hne].
        - rewrite lookup_insert_eq. eauto.
        - rewrite lookup_insert_ne by done. eauto. }
      { intros d m Hm. simpl. eauto. }
      exists h'. rewrite mapM_cons, Hlink, Hrun. split; [done|].
      assert (Hta : target neos h a = None)
        by (unfold target; by rewrite Ho).
      split.
      * intros m. rewrite Hn'. simpl.
        unfold relinked_body. rewrite (linked_of_ext neos h h1) by done.
        unfold linked_of. rewrite filter_cons.
        rewrite decide_False by congruence. done.
      * intros x. rewrite Ha'. simpl.
        destruct (decide (a = x)) as [->|Hne].
        -- rewrite lookup_insert_eq, Ho. simpl. f_equal.
           unfold relink. rewrite Ht, Hta. simpl.
           rewrite (decide_True (P := x ∈ x :: l)) by (apply elem_of_cons; by left).
           by case_decide.
        -- rewrite lookup_insert_ne by done.
           destruct (ca_objs h !! x) as [ox|]; [|done]. simpl. f_equal.
           rewrite (relink_ext neos h h1) by done. unfold relink.
           destruct (decide (x ∈ l)) as [Hin|Hout].
           ++ rewrite decide_True; [done|]. apply elem_of_cons. by right.
           ++ rewrite decide_False; [done|]. rewrite elem_of_cons.
              by intros [?|?].
Qed.

(** ** Building the dictionaries *)

Lemma dict_comp_spec {K} `{Countable K} (key : NearEarthObject -> K) neos :
  forall (acc : gmap K loc) h,
  Forall (fun n => is_Some (neo_objs h !! n)) neos ->
  exists m,
    dict_comp key neos acc h = Ok (m, h) /\
    (forall k n, m !! k = Some n ->
       acc !! k = Some n \/
       (n ∈ neos /\ key <$> neo_objs h !! n = Some k)) /\
    (forall n b, n ∈ neos -> neo_objs h !! n = Some b ->
       is_Some (m !! key b)) /\
    (forall k, is_Some (acc !! k) -> is_Some (m !! k)).
Proof.
  induction neos as [|i neos IH]; intros acc h Hv.
  - exists acc. split; [done|]. split; [by left|]. split; [|done].
    intros n b Hin. by apply elem_of_nil in Hin.
  - apply Forall_cons in Hv as [[o Ho] Hv].
    destruct (IH (<[key o := i]> acc) h Hv) as (m & Hrun & Hfrom & Hall & Hacc).
    exists m. split.
    { simpl. unfold bind, get_neo. by rewrite Ho. }
    split; [|split].
    + intros k n Hk. destruct (Hfrom k n Hk) as [Hins|[Hin Hkey]].
      * destruct (decide (key o = k)) as [<-|Hne].
        -- rewrite lookup_insert_eq in Hins. injection Hins as <-.
           right. split; [apply elem_of_cons; by left|]. by rewrite Ho.
        -- rewrite lookup_insert_ne in Hins by done. by left.
      * right. split; [apply elem_of_cons; by right|done].
    + intros n b Hin Hb. apply elem_of_cons in Hin as [->|Hin].
      * assert (b = o) as -> by congruence.
        apply Hacc. rewrite lookup_insert_eq. eauto.
      * by eapply Hall.
    + intros k Hk. apply Hacc.
      destruct (decide (key o = k)) as [<-|Hne].
      * rewrite lookup_insert_eq. eauto.
      * by rewrite lookup_insert_ne.
Qed.

Lemma mapM_read_neo l : forall h,
  Forall (fun a => is_Some (ca_objs h !! a)) l ->
  exists fields,
    mapM (fun i => o <- get_ca i ;; ret (neo o)) l h = Ok (fields, h).
Proof.
  set (f := fun i : loc => o <- get_ca i ;; ret (neo o)).
  induction l as [|a l IH]; intros h Hv.
  - by exists [].
  - apply Forall_cons in Hv as [[o Ho] Hv].
    destruct (IH h Hv) as [fields Hrun].
    assert (Hf : f a h = Ok (neo o, h))
      by (unfold f, bind, get_ca, ret; by rewrite Ho).
    exists (neo o :: fields). by rewrite mapM_cons, Hf, Hrun.
Qed.

(** ** The constructor of the database *)

Lemma NEODatabase_init_spec h neos events :
  well_typed h neos events ->
  exists db h',
    NEODatabase_init neos events h = Ok (db, h') /\
    _approaches db = events /\
    (forall d n, neo_by_designation db !! d = Some n ->
       n ∈ neos /\ designation <$> neo_objs h !! n = Some d) /\
    (forall n b, n ∈ neos -> neo_objs h !! n = Some b ->
       is_Some (neo_by_designation db !! designation b)) /\
    (forall k n, neo_by_name db !! k = Some n ->
       n ∈ neos /\ name <$> neo_objs h !! n = Some k) /\
    (forall n b, n ∈ neos -> neo_objs h !! n = Some b ->
       is_Some (neo_by_name db !! name b)) /\
    (forall n, neo_objs h' !! n =
       relinked_body (neo_by_designation db) h events n <$> neo_objs h !! n) /\
    (forall a, ca_objs h' !! a =
       relink (neo_by_designation db) h events a <$> ca_objs h !! a).
Proof.
  intros [Hneos Hcas].
  destruct (dict_comp_spec name neos ∅ h Hneos)
    as (by_name & Hrun1 & Hn_from & Hn_all & _).
  destruct (dict_comp_spec designation neos ∅ h Hneos)
    as (by_des & Hrun2 & Hd_from & Hd_all & _).
  destruct (link_all_spec by_des events h Hcas) as (h' & Hrun3 & Hbody & Hca).
  { intros d n Hd. destruct (Hd_from d n Hd) as [Hemp|[Hin Hkey]].
    - by rewrite lookup_empty in Hemp.
    - destruct (neo_objs h !! n); [eauto|done]. }
  destruct (mapM_read_neo events h') as [fields Hrun4].
  { eapply Forall_impl; [exact Hcas|]. intros a [o Ho]. simpl.
    rewrite Hca, Ho. simpl. eauto. }
  eexists _, h'. split.
  { unfold NEODatabase_init. unfold bind at 1. rewrite Hrun1.
    unfold bind at 1. rewrite Hrun2. unfold bind at 1. rewrite Hrun3.
    unfold bind at 1. rewrite Hrun4. reflexivity. }
  simpl. split; [done|]. split; [|split; [done|split; [|done]]].
  - intros d n Hd. destruct (Hd_from d n Hd) as [Hemp|?]; [|done].
    by rewrite lookup_empty in Hemp.
  - intros k n Hk. destruct (Hn_from k n Hk) as [Hemp|?]; [|done].
    by rewrite lookup_empty in Hemp.
Qed.

(** ** Counting occurrences *)

Lemma occurrences_cons a x l :
  occurrences a (x :: l) =
  if decide (x = a) then S (occurrences a l) else occurrences a l.
Proof. unfold occurrences. rewrite filter_cons. by case_decide. Qed.

Lemma occurrences_absent a l : a ∉ l -> occurrences a l = 0.
Proof.
  induction l as [|x l IH]; intros Hout; [done|].
  rewrite occurrences_cons. apply not_elem_of_cons in Hout as [Hne Hout].
  rewrite decide_False by done. by apply IH.
Qed.

Lemma occurrences_NoDup a l : NoDup l -> a ∈ l -> occurrences a l = 1.
Proof.
  induction 1 as [|x l Hx Hnd IH]; intros Hin.
  - by apply elem_of_nil in Hin.
  - rewrite occurrences_cons. apply elem_of_cons in Hin as [->|Hin].
    + rewrite decide_True by done. by rewrite occurrences_absent.
    + rewrite decide_False; [by apply IH|]. intros ->. done.
Qed.

Lemma occurrences_filter (P : loc -> Prop) `{forall x, Decision (P x)} a l :
  P a -> occurrences a (filter P l) = occurrences a l.
Proof.
  intros Ha. induction l as [|x l IH]; [done|].
  rewrite filter_cons, (occurrences_cons a x l).
  destruct (decide (P x)) as [Hx|Hx].
  - rewrite occurrences_cons. by rewrite IH.
  - rewrite IH. rewrite decide_False; [done|]. by intros ->.
Qed.

(** ** Linking: the claims *)

(** C1.  Construct the database once from well-typed, unlinked
    collections whose approaches are pairwise distinct objects.  The
    construction succeeds, and every approach of the collection whose
    [neo] then is a [NearEarthObject] occurs exactly once in the
    [approaches] of that object, whose [designation] is the approach's
    [_designation]. *)
Theorem linked_approach_listed_once h neos events :
  well_typed h neos events ->
  unlinked h neos ->
  NoDup events ->
  exists db h',
    NEODatabase_init neos events h = Ok (db, h') /\
    forall a o n,
      a ∈ events ->
      ca_objs h' !! a = Some o ->
      neo o = NeoRef n ->
      exists b,
        neo_objs h' !! n = Some b /\
        occurrences a (approaches b) = 1 /\
        designation b = _designation o.
Proof.
  intros Hwt Hun Hnd.
  destruct (NEODatabase_init_spec h neos events Hwt)
    as (db & h' & Hrun & _ & Hd_from & _ & _ & _ & Hbody & Hca).
  exists db, h'. split; [done|].
  intros a o n Hin Ho Hneo.
  rewrite Hca in Ho. destruct (ca_objs h !! a) as [o0|] eqn:Ho0; [|done].
  simpl in Ho. injection Ho as <-.
  unfold relink in Hneo |- *. rewrite decide_True in Hneo |- * by done.
  simpl in Hneo.
  assert (Ht : target (neo_by_designation db) h a = Some n).
  { destruct (target (neo_by_designation db) h a); simpl in Hneo; congruence. }
  pose proof Ht as Hlook. unfold target in Hlook. rewrite Ho0 in Hlook.
  destruct (Hd_from _ _ Hlook) as [Hn_in Hdes].
  destruct (neo_objs h !! n) as [b0|] eqn:Hb0; [|done].
  simpl in Hdes. injection Hdes as Hdes.
  exists (relinked_body (neo_by_designation db) h events n b0).
  split; [by rewrite Hbody, Hb0|]. split; [|done].
  unfold unlinked in Hun. rewrite Forall_forall in Hun.
  specialize (Hun n Hn_in). rewrite Hb0 in Hun. simpl in Hun.
  injection Hun as Hemp.
  unfold relinked_body. simpl. rewrite Hemp. simpl.
  unfold linked_of.
  rewrite (occurrences_filter
             (fun x => target (neo_by_designation db) h x = Some n)) by done.
  by apply occurrences_NoDup.
Qed.

(** C7.  Linking is not idempotent: linking an approach whose
    designation resolves, and linking it again, leaves it twice at the end
    of its body's [approaches]. *)
Theorem link_neo_twice_appends_twice h a o n b (neos : gmap string loc) :
  ca_objs h !! a = Some o ->
  neos !! _designation o = Some n ->
  neo_objs h !! n = Some b ->
  exists h1 h2,
    link_neo a neos h = Ok (a, h1) /\
    link_neo a neos h1 = Ok (a, h2) /\
    neo <$> ca_objs h1 !! a = Some (NeoRef n) /\
    approaches <$> neo_objs h1 !! n = Some (approaches b ++ [a]) /\
    approaches <$> neo_objs h2 !! n = Some (approaches b ++ [a; a]).
Proof.
  intros Ho Hn Hb.
  eexists _, _. split; [by apply (link_neo_hit h a o n b)|].
  split.
  { apply (link_neo_hit _ a (with_neo (NeoRef n) o) n (with_appended a b));
      simpl; [by rewrite lookup_insert_eq | done | by rewrite lookup_insert_eq]. }
  simpl. rewrite !lookup_insert_eq. simpl.
  split; [done|]. split; [done|]. by rewrite <- app_assoc.
Qed.

(** ** Iterators *)

Lemma iter_eval_advance c it a : iter_eval (advance c it) a = iter_eval it a.
Proof. induction it as [|k f src IH]; simpl; [done|by rewrite IH]. Qed.

Lemma iter_rest_advance c it : iter_rest (advance c it) = drop c (iter_rest it).
Proof.
  induction it as [l pos|k f src IH]; simpl; [|done].
  by rewrite drop_drop.
Qed.

Lemma iter_depth_advance c it : iter_depth (advance c it) = iter_depth it.
Proof. induction it as [|k f src IH]; simpl; [done|by rewrite IH]. Qed.

Lemma advance_advance c c' it : advance c' (advance c it) = advance (c + c') it.
Proof.
  induction it as [l pos|k f src IH]; simpl.
  - by rewrite Nat.add_assoc.
  - by rewrite IH.
Qed.

Lemma scan_bounds ev rest r c t :
  scan ev rest = (r, c, t) ->
  c <= length rest /\ (is_Some r -> 1 <= c).
Proof.
  revert r c t. induction rest as [|a rest IH]; intros r c t; simpl.
  - intros [= <- <- <-]. split; [done|]. by intros [? ?].
  - destruct (ev a) as [[] ta].
    + intros [= <- <- <-]. split; [lia|done].
    + destruct (scan ev rest) as [[r' c'] t'].
      intros [= <- <- <-]. destruct (IH _ _ _ eq_refl). split; lia.
Qed.

Lemma iter_eval_filter k f src a :
  iter_eval (FilterIter k f src) a =
  let '(b, t) := iter_eval src a in
  if b then (f a, t ++ [(k, a)]) else (false, t).
Proof. done. Qed.

Lemma scan_ext ev ev' rest :
  (forall a, ev a = ev' a) -> scan ev rest = scan ev' rest.
Proof.
  intros Hev. induction rest as [|x rest IH]; [done|].
  simpl. by rewrite Hev, IH.
Qed.

(** One more filter on top of a stack, in terms of the stack below. *)
Lemma scan_filter k f src rest :
  scan (iter_eval (FilterIter k f src)) rest =
  match scan (iter_eval src) rest with
  | (None, c, t) => (None, c, t)
  | (Some a, c, t) =>
      if f a then (Some a, c, t ++ [(k, a)])
      else
        let '(r', c', t') :=
          scan (iter_eval (FilterIter k f src)) (drop c rest) in
        (r', c + c', t ++ (k, a) :: t')
  end.
Proof.
  induction rest as [|x rest IH]; [done|].
  cbn [scan]. rewrite iter_eval_filter.
  destruct (iter_eval src x) as [[] tx].
  - destruct (f x); [done|]. rewrite skipn_cons, drop_0.
    destruct (scan _ rest) as [[r' c'] t']. by rewrite <- app_assoc.
  - rewrite IH. destruct (scan (iter_eval src) rest) as [[[a|] c] t]; [|done].
    destruct (f a).
    + by rewrite app_assoc.
    + rewrite skipn_cons.
      destruct (scan _ (drop c rest)) as [[r' c'] t'].
      by rewrite app_assoc.
Qed.

(** With enough fuel, [next] does what [scan] says. *)
Lemma iter_next_scan fuel : forall it,
  iter_depth it + length (iter_rest it) < fuel ->
  iter_next fuel it =
    Some (let '(r, c, t) := scan (iter_eval it) (iter_rest it) in
          (r, advance c it, t)).
Proof.
  induction fuel as [|fuel IH]; intros it Hfuel; [lia|].
  destruct it as [l pos|k f src]; cbn [iter_next].
  - cbn [iter_rest iter_eval advance].
    destruct (l !! pos) as [a|] eqn:Ha.
    + rewrite (drop_S _ _ _ Ha). simpl. by rewrite Nat.add_1_r.
    + rewrite drop_ge by (by apply lookup_ge_None). simpl.
      by rewrite Nat.add_0_r.
  - cbn [iter_depth iter_rest] in Hfuel.
    rewrite IH by lia. cbn [iter_rest advance].
    rewrite scan_filter.
    destruct (scan (iter_eval src) (iter_rest src)) as [[[a|] c] t] eqn:Hscan;
      [|done].
    destruct (f a); [done|].
    destruct (scan_bounds _ _ _ _ _ Hscan) as [Hle Hge].
    specialize (Hge (ex_intro _ a eq_refl)).
    rewrite IH.
    2:{ cbn [iter_depth iter_rest].
        rewrite iter_depth_advance, iter_rest_advance, length_drop. lia. }
    cbn [iter_rest]. rewrite iter_rest_advance.
    rewrite (scan_ext (iter_eval (FilterIter k f (advance c src)))
               (iter_eval (FilterIter k f src))).
    2:{ intros x. by rewrite !iter_eval_filter, iter_eval_advance. }
    destruct (scan _ (drop c (iter_rest src))) as [[r' c'] t'].
    cbn [advance]. by rewrite advance_advance.
Qed.

(** The bound [py_next] computes always suffices. *)
Lemma py_next_total it :
  py_next it =
    Some (let '(r, c, t) := scan (iter_eval it) (iter_rest it) in
          (r, advance c it, t)).
Proof. unfold py_next, iter_fuel. apply iter_next_scan. lia. Qed.

(** What a whole pass over [rest] yields and calls, from single steps. *)
Lemma scan_Some ev rest a c t :
  scan ev rest = (Some a, c, t) ->
  List.filter (fun x => (ev x).1) rest
    = a :: List.filter (fun x => (ev x).1) (drop c rest) /\
  flat_map (fun x => (ev x).2) rest
    = t ++ flat_map (fun x => (ev x).2) (drop c rest).
Proof.
  revert c t. induction rest as [|x rest IH]; intros c t; [done|].
  cbn [scan List.filter flat_map].
  destruct (ev x) as [[] tx] eqn:Hx; simpl.
  - intros [= <- <- <-]. by rewrite skipn_cons, drop_0.
  - destruct (scan ev rest) as [[r' c'] t'].
    intros [= -> <- <-]. destruct (IH _ _ eq_refl) as [Hf Ht].
    rewrite skipn_cons. by rewrite Hf, Ht, app_assoc.
Qed.

Lemma scan_None ev rest c t :
  scan ev rest = (None, c, t) ->
  List.filter (fun x => (ev x).1) rest = [] /\
  flat_map (fun x => (ev x).2) rest = t.
Proof.
  revert c t. induction rest as [|x rest IH]; intros c t.
  - by intros [= <- <-].
  - cbn [scan List.filter flat_map].
    destruct (ev x) as [[] tx] eqn:Hx; simpl; [done|].
    destruct (scan ev rest) as [[r' c'] t'].
    intros [= -> <- <-]. destruct (IH _ _ eq_refl) as [Hf Ht].
    by rewrite Hf, Ht.
Qed.

(** ** Generators *)

(** Asking one generator for an element leaves the others as they were. *)
Lemma gen_next_frame g gs r t gs' :
  gen_next g gs = Some (r, t, gs') ->
  length gs' = length gs /\
  forall g', g' <> g -> gs' !! g' = gs !! g'.
Proof.
  unfold gen_next. destruct (gs !! g) as [st|]; [|done].
  destruct (gen_iter st) as [it|].
  - destruct (py_next it) as [[[[a|] it'] t']|]; [| |done];
      intros [= <- <- <-]; (split; [by rewrite length_insert|]);
      intros g' Hne; by rewrite list_lookup_insert_ne.
  - by intros [= <- <- <-].
Qed.

Lemma consume_frame fuel : forall g gs out t gs',
  consume fuel g gs = Some (out, t, gs') ->
  length gs' = length gs /\
  forall g', g' <> g -> gs' !! g' = gs !! g'.
Proof.
  induction fuel as [|fuel IH]; intros g gs out t gs'; [done|].
  cbn [consume].
  destruct (gen_next g gs) as [[[[a|] t1] gs1]|] eqn:Hnext; [| |done].
  - destruct (consume fuel g gs1) as [[[out2 t2] gs2]|] eqn:Hrest; [|done].
    intros [= <- <- <-].
    destruct (gen_next_frame _ _ _ _ _ Hnext) as [Hl1 Hf1].
    destruct (IH _ _ _ _ _ Hrest) as [Hl2 Hf2].
    split; [congruence|]. intros g' Hne. by rewrite Hf2, Hf1.
  - intros [= <- <- <-]. by eapply gen_next_frame.
Qed.

(** Consuming a generator to the end yields, in order, the elements
    still to come that pass the stack of filters, and calls the
    predicates as [iter_eval] says, element after element. *)
Lemma consume_spec fuel : forall g gs st it,
  gs !! g = Some st ->
  gen_iter st = Some it ->
  length (iter_rest it) < fuel ->
  consume fuel g gs =
    Some (List.filter (fun a => (iter_eval it a).1) (iter_rest it),
          flat_map (fun a => (iter_eval it a).2) (iter_rest it),
          <[g := GenDone]> gs).
Proof.
  induction fuel as [|fuel IH]; intros g gs st it Hg Hit Hfuel; [lia|].
  cbn [consume]. unfold gen_next. rewrite Hg, Hit.
  rewrite py_next_total.
  destruct (scan (iter_eval it) (iter_rest it)) as [[[a|] c] t] eqn:Hscan.
  - destruct (scan_bounds _ _ _ _ _ Hscan) as [Hle Hge].
    specialize (Hge (ex_intro _ a eq_refl)).
    destruct (scan_Some _ _ _ _ _ Hscan) as [Hf Ht].
    rewrite (IH g _ (GenSuspended (advance c it)) (advance c it)).
    + rewrite list_insert_insert_eq, Hf, Ht, iter_rest_advance.
      rewrite (filter_ext (fun x => (iter_eval (advance c it) x).1)
                 (fun x => (iter_eval it x).1))
        by (intros x; by rewrite iter_eval_advance).
      rewrite (flat_map_ext (fun x => (iter_eval (advance c it) x).2)
                 (fun x => (iter_eval it x).2))
        by (intros x; by rewrite iter_eval_advance).
      done.
    + apply list_lookup_insert_eq. by eapply lookup_lt_Some.
    + done.
    + rewrite iter_rest_advance, length_drop. lia.
  - destruct (scan_None _ _ _ _ Hscan) as [Hf Ht]. by rewrite Hf, Ht.
Qed.

Lemma consume_done fuel g gs :
  gs !! g = Some GenDone -> consume (S fuel) g gs = Some ([], [], gs).
Proof. intros Hg. cbn [consume]. unfold gen_next. by rewrite Hg. Qed.

(** ** The filters of a query *)

Lemma iter_rest_apply_filters filters : forall k it,
  iter_rest (apply_filters k filters it) = iter_rest it.
Proof.
  induction filters as [|f filters IH]; intros k it; [done|].
  cbn [apply_filters]. by rewrite IH.
Qed.

Lemma iter_eval_apply_filters filters a : forall k it,
  iter_eval (apply_filters k filters it) a =
  let '(b, t) := iter_eval it a in
  if b then let '(b', t') := eval_filters k filters a in (b', t ++ t')
  else (false, t).
Proof.
  induction filters as [|f filters IH]; intros k it.
  - cbn [apply_filters eval_filters].
    destruct (iter_eval it a) as [[] t]; by rewrite ?app_nil_r.
  - cbn [apply_filters eval_filters]. rewrite IH, iter_eval_filter.
    destruct (iter_eval it a) as [[] t]; [|done].
    destruct (f a); [|done].
    destruct (eval_filters (S k) filters a) as [b' t'].
    by rewrite <- app_assoc.
Qed.

Lemma iter_rest_query_body db filters :
  iter_rest (query_body db filters) = _approaches db.
Proof.
  unfold query_body. case_bool_decide; simpl; [done|].
  by rewrite iter_rest_apply_filters.
Qed.

Lemma iter_eval_query_body db filters a :
  iter_eval (query_body db filters) a = eval_filters 0 filters a.
Proof.
  unfold query_body. case_bool_decide as Hf; simpl.
  - by rewrite Hf.
  - rewrite iter_eval_apply_filters. simpl.
    by destruct (eval_filters 0 filters a).
Qed.

Lemma eval_filters_forallb filters a : forall k,
  (eval_filters k filters a).1 = forallb (fun p => p a) filters.
Proof.
  induction filters as [|f filters IH]; intros k; [done|].
  cbn [eval_filters forallb]. destruct (f a); [|done].
  specialize (IH (S k)). by destruct (eval_filters (S k) filters a).
Qed.

(** The calls made on one approach: the predicates at positions
    [k], [k+1], ... in turn, up to the first that returns false. *)
Lemma eval_filters_calls filters a : forall k,
  (eval_filters k filters a).2 =
  (fun i => (i, a)) <$>
    seq k (min (length filters) (S (leading_true filters a))).
Proof.
  induction filters as [|f filters IH]; intros k; [done|].
  cbn [eval_filters leading_true length].
  destruct (f a).
  - specialize (IH (S k)).
    destruct (eval_filters (S k) filters a) as [b t]. simpl in IH.
    cbn [snd Nat.min seq]. by rewrite fmap_cons, IH.
  - by destruct filters.
Qed.

(** The whole of a query: what it yields and the calls it makes. *)
Lemma consume_created db filters g gs fuel :
  gs !! g = Some (GenCreated db filters) ->
  length (_approaches db) < fuel ->
  consume fuel g gs =
    Some (List.filter (fun a => forallb (fun p => p a) filters)
            (_approaches db),
          flat_map (fun a => (eval_filters 0 filters a).2) (_approaches db),
          <[g := GenDone]> gs).
Proof.
  intros Hg Hfuel.
  rewrite (consume_spec fuel g gs (GenCreated db filters)
             (query_body db filters)); [|done|done|].
  - rewrite iter_rest_query_body.
    rewrite (filter_ext (fun a => (iter_eval (query_body db filters) a).1)
               (fun a => forallb (fun p => p a) filters))
      by (intros a; by rewrite iter_eval_query_body, eval_filters_forallb).
    rewrite (flat_map_ext (fun a => (iter_eval (query_body db filters) a).2)
               (fun a => (eval_filters 0 filters a).2))
      by (intros a; by rewrite iter_eval_query_body).
    done.
  - by rewrite iter_rest_query_body.
Qed.

Lemma query_lookup db filters gs :
  (query db filters gs).2 !! (query db filters gs).1
  = Some (GenCreated db filters).
Proof. unfold query. cbn [fst snd]. by rewrite list_lookup_middle. Qed.

Lemma filter_all_true (l : list loc) : List.filter (fun _ => true) l = l.
Proof. induction l as [|x l IH]; [done|]. simpl. by rewrite IH. Qed.

Lemma flat_map_nil (l : list loc) :
  flat_map (fun _ => @nil Event) l = [].
Proof. by induction l. Qed.

(** ** Queries: the claims *)

(** C3.  Whatever generators exist already, a query without predicates
    yields the stored approaches, all of them and in the stored order,
    and calls no predicate.  Two calls of [query] with the same predicates
    make two different generators; consuming the first to its end leaves
    the second untouched, which then yields the same approaches; asking
    any generator for an element changes no other generator. *)
Theorem query_unfiltered_repeatable db gs fuel :
  length (_approaches db) < fuel ->
  consume fuel (query db [] gs).1 (query db [] gs).2
    = Some (_approaches db, [], <[(query db [] gs).1 := GenDone]>
                                  (query db [] gs).2) /\
  (forall filters,
     let g1 := (query db filters gs).1 in
     let gs1 := (query db filters gs).2 in
     let g2 := (query db filters gs1).1 in
     let gs2 := (query db filters gs1).2 in
     g1 <> g2 /\
     exists out calls gs3 gs4,
       consume fuel g1 gs2 = Some (out, calls, gs3) /\
       gs3 !! g2 = gs2 !! g2 /\
       consume fuel g2 gs3 = Some (out, calls, gs4)) /\
  (forall g gs0 r calls gs',
     gen_next g gs0 = Some (r, calls, gs') ->
     forall g', g' <> g -> gs' !! g' = gs0 !! g').
Proof.
  intros Hfuel. split; [|split].
  - rewrite (consume_created db [] _ _ fuel (query_lookup db [] gs) Hfuel).
    simpl. by rewrite filter_all_true, flat_map_nil.
  - intros filters g1 gs1 g2 gs2.
    assert (Hne : g1 <> g2).
    { unfold g1, g2, gs1, query. cbn [fst snd]. rewrite length_app. simpl. lia. }
    split; [done|].
    assert (Hg2 : gs2 !! g2 = Some (GenCreated db filters))
      by apply query_lookup.
    assert (Hg1 : gs2 !! g1 = Some (GenCreated db filters)).
    { unfold gs2, query at 1. cbn [snd].
      apply lookup_app_l_Some. apply query_lookup. }
    eexists _, _, _, _. split; [by apply consume_created|].
    split; [by rewrite list_lookup_insert_ne|].
    apply consume_created; [|done]. by rewrite list_lookup_insert_ne.
  - intros g gs0 r calls gs' Hnext. by eapply gen_next_frame.
Qed.

(** C4.  A query with a non-empty collection of predicates yields, in
    the stored order, the approaches of which every predicate holds, and
    no other; on each approach in turn it calls the predicates in the
    order supplied, up to the first that returns false. *)
Theorem query_yields_conjunction db filters gs fuel :
  filters <> [] ->
  length (_approaches db) < fuel ->
  exists out calls gs',
    consume fuel (query db filters gs).1 (query db filters gs).2
      = Some (out, calls, gs') /\
    out = List.filter (fun a => forallb (fun p => p a) filters)
            (_approaches db) /\
    (forall a, a ∈ out <->
       a ∈ _approaches db /\ forall p, p ∈ filters -> p a = true) /\
    calls = flat_map
              (fun a => (fun i => (i, a)) <$>
                 seq 0 (min (length filters) (S (leading_true filters a))))
              (_approaches db).
Proof.
  intros _ Hfuel. eexists _, _, _.
  split; [exact (consume_created db filters _ _ fuel
                   (query_lookup db filters gs) Hfuel)|].
  split; [done|]. split.
  - intros a. rewrite list_elem_of_In, filter_In, forallb_forall.
    rewrite <- list_elem_of_In.
    split; intros [Hin Hall]; (split; [done|]); intros p Hp; apply Hall.
    + by apply list_elem_of_In.
    + by apply list_elem_of_In.
  - apply flat_map_ext. intros a. apply eval_filters_calls.
Qed.

(** C5.  An approach of the collection whose [_designation] is the
    designation of no body is left with [neo] set to [None] by the
    construction, is in the [approaches] of no body afterwards, and is
    among the approaches an unfiltered query yields. *)
Theorem unmatched_approach_kept_unlinked h neos events a o :
  well_typed h neos events ->
  a ∈ events ->
  ca_objs h !! a = Some o ->
  (forall n b, n ∈ neos -> neo_objs h !! n = Some b ->
     designation b <> _designation o) ->
  (forall n b, neo_objs h !! n = Some b -> a ∉ approaches b) ->
  exists db h',
    NEODatabase_init neos events h = Ok (db, h') /\
    neo_by_designation db !! _designation o = None /\
    neo <$> ca_objs h' !! a = Some NeoNone /\
    (forall n b, neo_objs h' !! n = Some b -> a ∉ approaches b) /\
    (forall gs fuel, length events < fuel ->
       exists out calls gs',
         consume fuel (query db [] gs).1 (query db [] gs).2
           = Some (out, calls, gs') /\
         a ∈ out).
Proof.
  intros Hwt Hin Ho Hnomatch Hfresh.
  destruct (NEODatabase_init_spec h neos events Hwt)
    as (db & h' & Hrun & Hstored & Hd_from & _ & _ & _ & Hbody & Hca).
  exists db, h'. split; [done|].
  assert (Hmiss : neo_by_designation db !! _designation o = None).
  { destruct (neo_by_designation db !! _designation o) as [n|] eqn:Hn; [|done].
    destruct (Hd_from _ _ Hn) as [Hn_in Hdes].
    destruct (neo_objs h !! n) as [b|] eqn:Hb; [|done].
    simpl in Hdes. injection Hdes as Hdes.
    by destruct (Hnomatch n b Hn_in Hb). }
  assert (Ht : target (neo_by_designation db) h a = None)
    by (unfold target; by rewrite Ho).
  split; [done|]. split; [|split].
  - rewrite Hca, Ho. simpl. unfold relink.
    rewrite decide_True by done. by rewrite Ht.
  - intros n b. rewrite Hbody.
    destruct (neo_objs h !! n) as [b0|] eqn:Hb0; [|done].
    simpl. intros [= <-]. unfold relinked_body. simpl.
    rewrite not_elem_of_app. split; [by eapply Hfresh|].
    unfold linked_of. rewrite list_elem_of_filter. intros [Hta _].
    congruence.
  - intros gs fuel Hfuel. eexists _, _, _. split.
    + apply (consume_created db [] _ _ fuel (query_lookup db [] gs)).
      by rewrite Hstored.
    + simpl. by rewrite filter_all_true, Hstored.
Qed.

(** ** Construction of a body *)

Lemma py_eq_str_true v s : py_eq_str v s = true <-> v = VStr s.
Proof.
  destruct v as [| | |s']; simpl; try (split; [done|congruence]).
  rewrite String.eqb_eq. split; congruence.
Qed.

(** C10.  The [hazardous] attribute of a constructed body is [True]
    exactly when the raw flag is the string ['Y']. *)
Theorem hazardous_iff_flag_is_Y py_float pdes name pha diameter :
  hazardous (NearEarthObject_init py_float pdes name pha diameter) = true
  <-> pha = VStr "Y".
Proof.
  simpl. unfold handle_hazard. rewrite <- py_eq_str_true.
  by destruct (py_eq_str pha "Y").
Qed.

(** The flags the claim lists all give [False]. *)
Lemma hazardous_false_examples py_float pdes name diameter :
  Forall (fun pha =>
            hazardous (NearEarthObject_init py_float pdes name pha diameter)
            = false)
    [VStr "y"; VStr "N"; VStr "True"; VBool true; VStr ""; VNone].
Proof. repeat constructor. Qed.

(** A constructed body never has the empty string as its name. *)
Lemma NearEarthObject_init_name py_float pdes nm pha diameter :
  name (NearEarthObject_init py_float pdes nm pha diameter) <> Some "".
Proof.
  simpl. destruct (String.eqb (py_str nm) "") eqn:He; simpl; [done|].
  apply String.eqb_neq in He. congruence.
Qed.

(** ** Serialisation *)

Section SerialisationFacts.

Variable datetime_to_str : datetime -> string.

(** C8.  For a linked approach, the kind ['csv'] gives the flat record
    and the kind ['json'] the record with the body's fields under
    ['neo']; every other kind raises [ValueError]. *)
Theorem serialize_linked h a o n b :
  ca_objs h !! a = Some o ->
  neo o = NeoRef n ->
  neo_objs h !! n = Some b ->
  serialize datetime_to_str h a (VStr "csv") =
    Ok (SDict [("datetime_utc", SStr (datetime_to_str (time o)));
               ("distance_au", SFloat (distance o));
               ("velocity_km_s", SFloat (velocity o));
               ("designation", SStr (designation b));
               ("name", ser_name (name b));
               ("diameter_km", SFloat (diameter b));
               ("potentially_hazardous", SBool (hazardous b))]) /\
  serialize datetime_to_str h a (VStr "json") =
    Ok (SDict [("datetime_utc", SStr (datetime_to_str (time o)));
               ("distance_au", SFloat (distance o));
               ("velocity_km_s", SFloat (velocity o));
               ("neo",
                SDict [("designation", SStr (designation b));
                       ("name", ser_name (name b));
                       ("diameter_km", SFloat (diameter b));
                       ("potentially_hazardous", SBool (hazardous b))])]) /\
  forall extension,
    extension <> VStr "csv" -> extension <> VStr "json" ->
    serialize datetime_to_str h a extension = Raise ValueError.
Proof.
  intros Ho Hneo Hb. unfold serialize, neo_of. rewrite Ho, Hneo, Hb.
  split; [done|]. split; [done|].
  intros extension Hcsv Hjson.
  destruct (py_eq_str extension "csv") eqn:E1;
    [by apply py_eq_str_true in E1|].
  destruct (py_eq_str extension "json") eqn:E2;
    [by apply py_eq_str_true in E2|].
  done.
Qed.

(** No call of [serialize] raises an exception of a class named
    [UnlinkedApproach]. *)
Lemma serialize_exn_class h a extension :
  ~ fails_with "UnlinkedApproach" (serialize datetime_to_str h a extension).
Proof. intros [e [_ Hcls]]. by destruct e. Qed.

(** C9, as the code has it.  Serialising an approach whose [neo] is
    [None] returns no record: with the kinds ['csv'] and ['json'] the
    access to an attribute of [None] raises [AttributeError], and with
    every other kind the [ValueError] of the unknown kind is raised. *)
Theorem serialize_unlinked_raises h a o :
  ca_objs h !! a = Some o ->
  neo o = NeoNone ->
  fails_with "AttributeError"
    (serialize datetime_to_str h a (VStr "csv")) /\
  fails_with "AttributeError"
    (serialize datetime_to_str h a (VStr "json")) /\
  forall extension,
    extension <> VStr "csv" -> extension <> VStr "json" ->
    fails_with "ValueError" (serialize datetime_to_str h a extension).
Proof.
  intros Ho Hneo. unfold serialize, neo_of. rewrite Ho, Hneo.
  split; [by exists AttributeError|]. split; [by exists AttributeError|].
  intros extension Hcsv Hjson.
  destruct (py_eq_str extension "csv") eqn:E1;
    [by apply py_eq_str_true in E1|].
  destruct (py_eq_str extension "json") eqn:E2;
    [by apply py_eq_str_true in E2|].
  by exists ValueError.
Qed.

End SerialisationFacts.

(** ** The concrete data set *)

Lemma scenario_init :
  NEODatabase_init Scenario.bodies Scenario.events Scenario.heap0
  = Ok (Scenario.db1, Scenario.heap1).
Proof. vm_compute. reflexivity. Qed.

(** The objects of the data set are what the constructors make of the
    raw records, for every [float] and [cd_to_datetime] that read the
    numbers and the timestamp of the records as written here. *)
Lemma scenario_unnamed_constructed py_float :
  NearEarthObject_init py_float (VStr "2019 SC8") (VStr "") (VStr "N")
    (VStr "") = Scenario.unnamed.
Proof. reflexivity. Qed.

Lemma scenario_eros_constructed py_float :
  py_float (VStr "16.84") = Ok Scenario.f_16_84 ->
  NearEarthObject_init py_float (VStr "2000433") (VStr "Eros") (VStr "N")
    (VStr "16.84") = Scenario.eros.
Proof.
  intros Hf. unfold NearEarthObject_init, Scenario.eros.
  simpl. by rewrite Hf.
Qed.

Lemma scenario_approach_constructed py_float cd_to_datetime des cd :
  des <> "" ->
  cd_to_datetime cd = Ok Scenario.t_1900 ->
  py_float (VStr "0.15") = Ok Scenario.f_0_15 ->
  py_float (VStr "17.06") = Ok Scenario.f_17_06 ->
  CloseApproach_init py_float cd_to_datetime (VStr des) cd
    (VStr "0.15") (VStr "17.06")
  = Ok {| _designation := des; time := Scenario.t_1900;
          distance := Scenario.f_0_15; velocity := Scenario.f_17_06;
          neo := NeoDes des |}.
Proof.
  intros Hdes Ht Hd Hv. unfold CloseApproach_init.
  rewrite Ht, Hd, Hv. unfold validate_des. simpl.
  apply String.eqb_neq in Hdes. by rewrite Hdes.
Qed.

Lemma scenario_well_typed :
  well_typed Scenario.heap0 Scenario.bodies Scenario.events.
Proof. split; repeat constructor; by eexists. Defined.

Lemma scenario_unlinked : unlinked Scenario.heap0 Scenario.bodies.
Proof. repeat constructor. Defined.

Lemma scenario_NoDup : NoDup Scenario.events.
Proof. apply (bool_decide_unpack _). vm_compute. exact I. Defined.

(** ** Name lookup *)

(** C2, the code at a failing input.  The data set has a body without a
    name, at 2.  The name dictionary of the database built from it has
    an entry under [None] for that body, and looking up [None] returns
    it; looking up the empty string finds nothing. *)
Theorem unnamed_body_indexed_under_None :
  exists db h',
    NEODatabase_init Scenario.bodies Scenario.events Scenario.heap0
      = Ok (db, h') /\
    name <$> neo_objs h' !! 2 = Some None /\
    neo_by_name db !! None = Some 2 /\
    get_neo_by_name db VNone = Some 2 /\
    get_neo_by_name db (VStr "") = None.
Proof.
  exists Scenario.db1, Scenario.heap1.
  split; [exact scenario_init|]. by vm_compute.
Qed.

(** C6, the code at a failing input.  A body constructed with the empty
    name has the name [None]; a body constructed with the name [None]
    has the name ['None'], a string.  In the database built from the
    first alone, looking up [None] returns it; looking up the empty
    string finds nothing. *)
Theorem empty_name_stored_as_None_and_found py_float :
  let body :=
    NearEarthObject_init py_float (VStr "2019 SC8") (VStr "") (VStr "N")
      (VStr "") in
  let h := {| neo_objs := <[2 := body]> ∅; ca_objs := ∅ |} in
  name body = None /\
  name (NearEarthObject_init py_float (VStr "2019 SC8") VNone (VStr "N")
          (VStr "")) = Some "None" /\
  exists db h',
    NEODatabase_init [2] [] h = Ok (db, h') /\
    get_neo_by_name db VNone = Some 2 /\
    get_neo_by_name db (VStr "") = None.
Proof.
  intros body h. split; [done|]. split; [done|].
  eexists _, _. split; [reflexivity|]. by vm_compute.
Qed.

(** ** Instances on the concrete data set *)

Lemma linked_approach_listed_once_witness :
  well_typed Scenario.heap0 Scenario.bodies Scenario.events /\
  unlinked Scenario.heap0 Scenario.bodies /\
  NoDup Scenario.events /\
  exists db h',
    NEODatabase_init Scenario.bodies Scenario.events Scenario.heap0
      = Ok (db, h') /\
    forall a o n,
      a ∈ Scenario.events ->
      ca_objs h' !! a = Some o ->
      neo o = NeoRef n ->
      exists b,
        neo_objs h' !! n = Some b /\
        occurrences a (approaches b) = 1 /\
        designation b = _designation o.
Proof.
  split; [exact scenario_well_typed|].
  split; [exact scenario_unlinked|].
  split; [exact scenario_NoDup|].
  exact (linked_approach_listed_once Scenario.heap0 Scenario.bodies
           Scenario.events scenario_well_typed scenario_unlinked
           scenario_NoDup).
Defined.

Lemma link_neo_twice_appends_twice_witness :
  ca_objs Scenario.heap0 !! 11 = Some Scenario.ca_eros /\
  neo_by_designation Scenario.db1 !! _designation Scenario.ca_eros = Some 1 /\
  neo_objs Scenario.heap0 !! 1 = Some Scenario.eros /\
  exists h1 h2,
    link_neo 11 (neo_by_designation Scenario.db1) Scenario.heap0
      = Ok (11, h1) /\
    link_neo 11 (neo_by_designation Scenario.db1) h1 = Ok (11, h2) /\
    neo <$> ca_objs h1 !! 11 = Some (NeoRef 1) /\
    approaches <$> neo_objs h1 !! 1 = Some ([] ++ [11]) /\
    approaches <$> neo_objs h2 !! 1 = Some ([] ++ [11; 11]).
Proof.
  split; [reflexivity|]. split; [reflexivity|]. split; [reflexivity|].
  exact (link_neo_twice_appends_twice Scenario.heap0 11 Scenario.ca_eros 1
           Scenario.eros (neo_by_designation Scenario.db1)
           eq_refl eq_refl eq_refl).
Defined.

Lemma query_unfiltered_repeatable_witness :
  length (_approaches Scenario.db1) < 3 /\
  consume 3 (query Scenario.db1 [] []).1 (query Scenario.db1 [] []).2
    = Some ([11; 12], [], [GenDone]).
Proof.
  assert (H : length (_approaches Scenario.db1) < 3) by (simpl; lia).
  split; [exact H|].
  exact (proj1 (query_unfiltered_repeatable Scenario.db1 [] 3 H)).
Defined.

Lemma query_yields_conjunction_witness :
  [Scenario.always; Scenario.is_eros] <> [] /\
  length (_approaches Scenario.db1) < 3 /\
  exists out calls gs',
    consume 3
      (query Scenario.db1 [Scenario.always; Scenario.is_eros] []).1
      (query Scenario.db1 [Scenario.always; Scenario.is_eros] []).2
      = Some (out, calls, gs') /\
    out = [11] /\
    (forall a, a ∈ out <->
       a ∈ _approaches Scenario.db1 /\
       forall p, p ∈ [Scenario.always; Scenario.is_eros] -> p a = true) /\
    calls = [(0, 11); (1, 11); (0, 12); (1, 12)].
Proof.
  assert (H1 : [Scenario.always; Scenario.is_eros] <> []) by discriminate.
  assert (H2 : length (_approaches Scenario.db1) < 3) by (simpl; lia).
  split; [exact H1|]. split; [exact H2|].
  exact (query_yields_conjunction Scenario.db1
           [Scenario.always; Scenario.is_eros] [] 3 H1 H2).
Defined.

Lemma scenario_bodies n b :
  neo_objs Scenario.heap0 !! n = Some b ->
  b = Scenario.eros \/ b = Scenario.unnamed.
Proof.
  unfold Scenario.heap0. cbn [neo_objs]. intros Hb.
  apply lookup_insert_Some in Hb as [[_ <-]|[_ Hb]]; [by left|].
  apply lookup_insert_Some in Hb as [[_ <-]|[_ Hb]]; [by right|].
  by rewrite lookup_empty in Hb.
Defined.

Lemma scenario_no_unknown n b :
  n ∈ Scenario.bodies ->
  neo_objs Scenario.heap0 !! n = Some b ->
  designation b <> _designation Scenario.ca_unknown.
Proof. intros _ Hb. by destruct (scenario_bodies n b Hb) as [-> | ->]. Defined.

Lemma scenario_fresh n b :
  neo_objs Scenario.heap0 !! n = Some b -> 12 ∉ approaches b.
Proof.
  intros Hb. destruct (scenario_bodies n b Hb) as [-> | ->];
    apply not_elem_of_nil.
Defined.

Lemma scenario_unknown_listed : 12 ∈ Scenario.events.
Proof. apply elem_of_cons. right. apply elem_of_cons. by left. Defined.

Lemma unmatched_approach_kept_unlinked_witness :
  well_typed Scenario.heap0 Scenario.bodies Scenario.events /\
  12 ∈ Scenario.events /\
  ca_objs Scenario.heap0 !! 12 = Some Scenario.ca_unknown /\
  exists db h',
    NEODatabase_init Scenario.bodies Scenario.events Scenario.heap0
      = Ok (db, h') /\
    neo_by_designation db !! "UNKNOWN-ID" = None /\
    neo <$> ca_objs h' !! 12 = Some NeoNone /\
    (forall n b, neo_objs h' !! n = Some b -> 12 ∉ approaches b) /\
    (forall gs fuel, length Scenario.events < fuel ->
       exists out calls gs',
         consume fuel (query db [] gs).1 (query db [] gs).2
           = Some (out, calls, gs') /\
         12 ∈ out).
Proof.
  split; [exact scenario_well_typed|].
  split; [exact scenario_unknown_listed|].
  split; [reflexivity|].
  exact (unmatched_approach_kept_unlinked Scenario.heap0 Scenario.bodies
           Scenario.events 12 Scenario.ca_unknown scenario_well_typed
           scenario_unknown_listed eq_refl scenario_no_unknown
           scenario_fresh).
Defined.

Lemma serialize_linked_witness :
  ca_objs Scenario.heap1 !! 11
    = Some (with_neo (NeoRef 1) Scenario.ca_eros) /\
  neo_objs Scenario.heap1 !! 1 = Some (with_appended 11 Scenario.eros) /\
  serialize Scenario.datetime_to_str Scenario.heap1 11 (VStr "csv") =
    Ok (SDict [("datetime_utc", SStr "1900-12-27 01:30");
               ("distance_au", SFloat Scenario.f_0_15);
               ("velocity_km_s", SFloat Scenario.f_17_06);
               ("designation", SStr "2000433");
               ("name", SStr "Eros");
               ("diameter_km", SFloat Scenario.f_16_84);
               ("potentially_hazardous", SBool false)]) /\
  serialize Scenario.datetime_to_str Scenario.heap1 11 (VStr "json") =
    Ok (SDict [("datetime_utc", SStr "1900-12-27 01:30");
               ("distance_au", SFloat Scenario.f_0_15);
               ("velocity_km_s", SFloat Scenario.f_17_06);
               ("neo",
                SDict [("designation", SStr "2000433");
                       ("name", SStr "Eros");
                       ("diameter_km", SFloat Scenario.f_16_84);
                       ("potentially_hazardous", SBool false)])]) /\
  serialize Scenario.datetime_to_str Scenario.heap1 11 (VStr ".csv")
    = Raise ValueError.
Proof.
  pose proof (serialize_linked Scenario.datetime_to_str Scenario.heap1 11
                (with_neo (NeoRef 1) Scenario.ca_eros) 1
                (with_appended 11 Scenario.eros) eq_refl eq_refl eq_refl)
    as (Hcsv & Hjson & Hother).
  split; [reflexivity|]. split; [reflexivity|].
  split; [exact Hcsv|]. split; [exact Hjson|].
  apply Hother; discriminate.
Defined.

(** C9 as the specification words it fails on the approach at 12 of the
    linked data set, whose [neo] is [None]: serialising it as ['csv']
    raises [AttributeError], not an error of class [UnlinkedApproach]. *)
Lemma serialize_unlinked_not_UnlinkedApproach :
  neo <$> ca_objs Scenario.heap1 !! 12 = Some NeoNone /\
  serialize Scenario.datetime_to_str Scenario.heap1 12 (VStr "csv")
    = Raise AttributeError /\
  ~ fails_with "UnlinkedApproach"
      (serialize Scenario.datetime_to_str Scenario.heap1 12 (VStr "csv")).
Proof.
  split; [reflexivity|]. split; [reflexivity|].
  apply serialize_exn_class.
Qed.

Lemma serialize_unlinked_raises_witness :
  ca_objs Scenario.heap1 !! 12 = Some (with_neo NeoNone Scenario.ca_unknown) /\
  neo (with_neo NeoNone Scenario.ca_unknown) = NeoNone /\
  fails_with "AttributeError"
    (serialize Scenario.datetime_to_str Scenario.heap1 12 (VStr "csv")) /\
  fails_with "AttributeError"
    (serialize Scenario.datetime_to_str Scenario.heap1 12 (VStr "json")) /\
  fails_with "ValueError"
    (serialize Scenario.datetime_to_str Scenario.heap1 12 (VStr "xml")).
Proof.
  pose proof (serialize_unlinked_raises Scenario.datetime_to_str
                Scenario.heap1 12 (with_neo NeoNone Scenario.ca_unknown)
                eq_refl eq_refl)
    as (Hcsv & Hjson & Hother).
  split; [reflexivity|]. split; [reflexivity|].
  split; [exact Hcsv|]. split; [exact Hjson|].
  apply Hother; discriminate.
Defined.

(** The premise of C1 that the approaches are distinct objects is
    needed: an approach object that is twice in the collection is linked
    twice, and is then twice in its body's [approaches]. *)
Lemma duplicate_approach_listed_twice :
  exists db h',
    NEODatabase_init Scenario.bodies [11; 11] Scenario.heap0 = Ok (db, h') /\
    approaches <$> neo_objs h' !! 1 = Some [11; 11].
Proof. eexists _, _. split; [reflexivity|]. by vm_compute. Qed.

(** * Further properties *)

(** ** The dictionaries, exactly *)

Lemma dict_comp_lookup {K} `{Countable K} (key : NearEarthObject -> K) neos :
  forall (acc : gmap K loc) h,
  Forall (fun n => is_Some (neo_objs h !! n)) neos ->
  exists m,
    dict_comp key neos acc h = Ok (m, h) /\
    forall k, m !! k = match last_with key h k neos with
                       | Some n => Some n
                       | None => acc !! k
                       end.
Proof.
  induction neos as [|i neos IH]; intros acc h Hv.
  - by exists acc.
  - apply Forall_cons in Hv as [[o Ho] Hv].
    destruct (IH (<[key o := i]> acc) h Hv) as (m & Hrun & Hm).
    exists m. split.
    { simpl. unfold bind, get_neo. by rewrite Ho. }
    intros k. rewrite Hm. cbn [last_with].
    destruct (last_with key h k neos) as [n|]; [done|].
    rewrite Ho. destruct (decide (key o = k)) as [<-|Hne].
    + by rewrite lookup_insert_eq.
    + by rewrite lookup_insert_ne.
Qed.

Lemma last_with_Some {K} `{EqDecision K} (key : NearEarthObject -> K)
    h k neos n :
  last_with key h k neos = Some n ->
  n ∈ neos /\ key <$> neo_objs h !! n = Some k.
Proof.
  induction neos as [|i neos IH]; [done|]. cbn [last_with].
  destruct (last_with key h k neos) as [m|].
  - intros [= ->]. destruct (IH eq_refl). split; [|done].
    apply elem_of_cons. by right.
  - destruct (neo_objs h !! i) as [o|] eqn:Ho; [|done].
    case_decide as Hk; [|done]. intros [= ->]. split.
    + apply elem_of_cons. by left.
    + rewrite Ho. simpl. by rewrite Hk.
Qed.

Lemma last_with_None {K} `{EqDecision K} (key : NearEarthObject -> K)
    h k neos :
  last_with key h k neos = None <->
  forall n b, n ∈ neos -> neo_objs h !! n = Some b -> key b <> k.
Proof.
  induction neos as [|i neos IH]; cbn [last_with].
  - split; [|done]. intros _ n b Hin. by apply elem_of_nil in Hin.
  - destruct (last_with key h k neos) as [m|].
    + split; [done|]. intros Hall. exfalso.
      assert (Hno : @None loc = None) by done.
      destruct IH as [_ IH]. discriminate IH.
      intros n b Hin. apply Hall. apply elem_of_cons. by right.
    + destruct IH as [IH _]. specialize (IH eq_refl).
      destruct (neo_objs h !! i) as [o|] eqn:Ho.
      * case_decide as Hk.
        -- split; [done|]. intros Hall. exfalso.
           apply (Hall i o); [apply elem_of_cons; by left|done|done].
        -- split; [|done]. intros _ n b Hin Hb.
           apply elem_of_cons in Hin as [->|Hin]; [|by eapply IH].
           congruence.
      * split; [|done]. intros _ n b Hin Hb.
        apply elem_of_cons in Hin as [->|Hin]; [|by eapply IH].
        congruence.
Qed.

Lemma last_with_app {K} `{EqDecision K} (key : NearEarthObject -> K)
    h k l1 l2 :
  last_with key h k (l1 ++ l2) =
  match last_with key h k l2 with
  | Some n => Some n
  | None => last_with key h k l1
  end.
Proof.
  induction l1 as [|i l1 IH]; simpl.
  - by destruct (last_with key h k l2).
  - rewrite IH. by destruct (last_with key h k l2).
Qed.

Lemma last_with_last {K} `{EqDecision K} (key : NearEarthObject -> K)
    h l1 n l2 b :
  neo_objs h !! n = Some b ->
  (forall m bm, m ∈ l2 -> neo_objs h !! m = Some bm -> key bm <> key b) ->
  last_with key h (key b) (l1 ++ n :: l2) = Some n.
Proof.
  intros Hb Hl2. rewrite last_with_app. cbn [last_with].
  apply last_with_None in Hl2. rewrite Hl2, Hb.
  by rewrite decide_True.
Qed.

Lemma last_with_ext {K} `{EqDecision K} (key : NearEarthObject -> K)
    h h' k neos :
  (forall n, key <$> neo_objs h' !! n = key <$> neo_objs h !! n) ->
  last_with key h' k neos = last_with key h k neos.
Proof.
  intros Hext. induction neos as [|i neos IH]; [done|].
  cbn [last_with]. rewrite IH.
  destruct (last_with key h k neos); [done|].
  specialize (Hext i).
  destruct (neo_objs h' !! i) as [o'|], (neo_objs h !! i) as [o|];
    simpl in Hext; try done.
  injection Hext as ->. done.
Qed.

Lemma mapM_read_neo_exact l : forall h,
  Forall (fun a => is_Some (ca_objs h !! a)) l ->
  mapM (fun i => o <- get_ca i ;; ret (neo o)) l h =
    Ok ((fun a => match ca_objs h !! a with
                  | Some o => neo o
                  | None => NeoNone
                  end) <$> l, h).
Proof.
  set (f := fun i : loc => o <- get_ca i ;; ret (neo o)).
  induction l as [|a l IH]; intros h Hv; [done|].
  apply Forall_cons in Hv as [[o Ho] Hv].
  assert (Hf : f a h = Ok (neo o, h))
    by (unfold f, bind, get_ca, ret; by rewrite Ho).
  rewrite mapM_cons, Hf, (IH h Hv), fmap_cons. by rewrite Ho.
Qed.

(** ** The constructor of the database, exactly *)

Lemma init_built h neos events :
  well_typed h neos events ->
  exists db h',
    NEODatabase_init neos events h = Ok (db, h') /\
    built h neos events db h'.
Proof.
  intros [Hneos Hcas].
  destruct (dict_comp_lookup name neos ∅ h Hneos) as (by_name & Hrun1 & Hnm).
  destruct (dict_comp_lookup designation neos ∅ h Hneos)
    as (by_des & Hrun2 & Hdm).
  assert (Hd : forall d, by_des !! d = last_with designation h d neos).
  { intros d. rewrite Hdm. destruct (last_with _ _ _ _); [done|].
    apply lookup_empty. }
  assert (Hn : forall k, by_name !! k = last_with name h k neos).
  { intros k. rewrite Hnm. destruct (last_with _ _ _ _); [done|].
    apply lookup_empty. }
  destruct (link_all_spec by_des events h Hcas) as (h' & Hrun3 & Hbody & Hca).
  { intros d n Hdn. rewrite Hd in Hdn.
    apply last_with_Some in Hdn as [_ Hkey].
    destruct (neo_objs h !! n); [eauto|done]. }
  assert (Hcas' : Forall (fun a => is_Some (ca_objs h' !! a)) events).
  { eapply Forall_impl; [exact Hcas|]. intros a [o Ho]. simpl.
    rewrite Hca, Ho. simpl. eauto. }
  eexists _, h'. split.
  { unfold NEODatabase_init. unfold bind at 1. rewrite Hrun1.
    unfold bind at 1. rewrite Hrun2. unfold bind at 1. rewrite Hrun3.
    unfold bind at 1. rewrite (mapM_read_neo_exact events h' Hcas').
    reflexivity. }
  repeat split; simpl; try done.
  apply Forall_fmap_ext. rewrite Forall_forall in Hcas |- *.
  intros a Hin. destruct (Hcas a Hin) as [o Ho].
  rewrite Hca, Ho. simpl. unfold relink. by rewrite decide_True.
Qed.

Lemma built_ca h neos events db h' a o :
  built h neos events db h' ->
  a ∈ events ->
  ca_objs h !! a = Some o ->
  ca_objs h' !! a
  = Some (with_neo (field_of (neo_by_designation db !! _designation o)) o).
Proof.
  intros (_ & _ & _ & _ & Hca & _) Hin Ho.
  rewrite Hca, Ho. simpl. unfold relink, target.
  by rewrite decide_True, Ho.
Qed.

(** ** Lookups *)

Lemma get_neo_by_designation_lookup db d :
  get_neo_by_designation db (VStr d) = neo_by_designation db !! d.
Proof.
  unfold get_neo_by_designation. case_bool_decide as Hs; [done|].
  destruct (neo_by_designation db !! d); [|done]. destruct Hs. eauto.
Qed.

Lemma get_neo_by_name_lookup db v :
  get_neo_by_name db v =
  match name_key v with
  | Some k => neo_by_name db !! k
  | None => None
  end.
Proof.
  unfold get_neo_by_name. destruct (name_key v) as [k|]; [|done].
  case_bool_decide as Hs; [done|].
  destruct (neo_by_name db !! k); [|done]. destruct Hs. eauto.
Qed.

(** X1.  A body is found under its designation: the database built from
    a collection of bodies returns, for the designation of a body that
    no later body of the collection shares, that very body; of bodies
    that share a designation the last one is returned. *)
Theorem get_neo_by_designation_finds_last h l1 n l2 events b :
  well_typed h (l1 ++ n :: l2) events ->
  neo_objs h !! n = Some b ->
  (forall m bm, m ∈ l2 -> neo_objs h !! m = Some bm ->
     designation bm <> designation b) ->
  exists db h',
    NEODatabase_init (l1 ++ n :: l2) events h = Ok (db, h') /\
    get_neo_by_designation db (VStr (designation b)) = Some n /\
    designation <$> neo_objs h' !! n = Some (designation b).
Proof.
  intros Hwt Hb Hl2.
  destruct (init_built _ _ _ Hwt) as (db & h' & Hrun & Hbuilt).
  exists db, h'. split; [done|].
  destruct Hbuilt as (_ & Hd & _ & Hbody & _).
  split.
  - rewrite get_neo_by_designation_lookup, Hd.
    by apply (last_with_last designation).
  - by rewrite Hbody, Hb.
Qed.


(** X3.  A named body is found under its name: for the name of a body
    that no later body of the collection shares, the lookup by name
    returns that very body. *)
Theorem get_neo_by_name_finds_last h l1 n l2 events b s :
  well_typed h (l1 ++ n :: l2) events ->
  neo_objs h !! n = Some b ->
  name b = Some s ->
  (forall m bm, m ∈ l2 -> neo_objs h !! m = Some bm -> name bm <> Some s) ->
  exists db h',
    NEODatabase_init (l1 ++ n :: l2) events h = Ok (db, h') /\
    get_neo_by_name db (VStr s) = Some n /\
    name <$> neo_objs h' !! n = Some (Some s).
Proof.
  intros Hwt Hb Hs Hl2.
  destruct (init_built _ _ _ Hwt) as (db & h' & Hrun & Hbuilt).
  exists db, h'. split; [done|].
  destruct Hbuilt as (_ & _ & Hn & Hbody & _).
  split.
  - rewrite get_neo_by_name_lookup. simpl. rewrite Hn, <- Hs.
    apply (last_with_last name); [done|]. by rewrite Hs.
  - by rewrite Hbody, Hb, <- Hs.
Qed.

(** X4.  A lookup by a name that is a string returns [None] exactly when
    no body of the collection has that name; a key that is neither a
    string nor [None] is never found. *)
Theorem get_neo_by_name_miss h neos events :
  well_typed h neos events ->
  exists db h',
    NEODatabase_init neos events h = Ok (db, h') /\
    (forall s,
       get_neo_by_name db (VStr s) = None <->
       forall n b, n ∈ neos -> neo_objs h !! n = Some b -> name b <> Some s) /\
    (forall b, get_neo_by_name db (VBool b) = None) /\
    (forall z, get_neo_by_name db (VInt z) = None).
Proof.
  intros Hwt.
  destruct (init_built _ _ _ Hwt) as (db & h' & Hrun & Hbuilt).
  exists db, h'. split; [done|].
  destruct Hbuilt as (_ & _ & Hn & _).
  split; [|done]. intros s.
  rewrite get_neo_by_name_lookup. simpl. by rewrite Hn, last_with_None.
Qed.

(** X5.  When every body of the collection is as the constructor makes
    it, the empty string is the name of none, and looking it up returns
    [None]. *)
Theorem get_neo_by_name_empty_string py_float h neos events :
  well_typed h neos events ->
  (forall n b, n ∈ neos -> neo_objs h !! n = Some b ->
     exists pdes nm pha dia,
       b = NearEarthObject_init py_float pdes nm pha dia) ->
  exists db h',
    NEODatabase_init neos events h = Ok (db, h') /\
    get_neo_by_name db (VStr "") = None.
Proof.
  intros Hwt Hmade.
  destruct (init_built _ _ _ Hwt) as (db & h' & Hrun & Hbuilt).
  exists db, h'. split; [done|].
  destruct Hbuilt as (_ & _ & Hn & _).
  rewrite get_neo_by_name_lookup. simpl. rewrite Hn, last_with_None.
  intros n b Hin Hb. destruct (Hmade n b Hin Hb) as (pdes & nm & pha & dia & ->).
  apply NearEarthObject_init_name.
Qed.

(** X6.  Lookup and linking agree: once the database is built, the
    [neo] of every approach of the collection is the body that the
    lookup by designation returns for the approach's [_designation],
    and [None] when that lookup returns [None]. *)
Theorem link_agrees_with_lookup h neos events :
  well_typed h neos events ->
  exists db h',
    NEODatabase_init neos events h = Ok (db, h') /\
    forall a o,
      a ∈ events ->
      ca_objs h' !! a = Some o ->
      neo o = field_of (get_neo_by_designation db (VStr (_designation o))).
Proof.
  intros Hwt.
  destruct (init_built _ _ _ Hwt) as (db & h' & Hrun & Hbuilt).
  exists db, h'. split; [done|].
  intros a o Hin Ho.
  destruct Hwt as [_ Hcas]. rewrite Forall_forall in Hcas.
  destruct (Hcas a Hin) as [o0 Ho0].
  rewrite (built_ca _ _ _ _ _ _ _ Hbuilt Hin Ho0) in Ho.
  injection Ho as <-. by rewrite get_neo_by_designation_lookup.
Qed.

(** ** What the construction does to the objects *)

Lemma built_resolves h neos events db h' d n :
  built h neos events db h' ->
  neo_by_designation db !! d = Some n ->
  n ∈ neos /\ designation <$> neo_objs h !! n = Some d.
Proof.
  intros (_ & Hd & _) Hn. rewrite Hd in Hn. by apply last_with_Some in Hn.
Qed.

Lemma linked_of_by_designation h neos events db h' n b :
  built h neos events db h' ->
  neo_objs h !! n = Some b ->
  neo_by_designation db !! designation b = Some n ->
  linked_of (neo_by_designation db) h n events
  = filter (fun a => des_of h a = Some (designation b)) events.
Proof.
  intros Hbuilt Hb Hn. unfold linked_of. apply list_filter_iff. intros a.
  unfold target, des_of. destruct (ca_objs h !! a) as [o|]; simpl; [|done].
  split.
  - intros Ht. destruct (built_resolves _ _ _ _ _ _ _ Hbuilt Ht) as [_ Hdes].
    rewrite Hb in Hdes. simpl in Hdes. congruence.
  - intros [= ->]. done.
Qed.

Lemma linked_of_none (neos : gmap string loc) h n l :
  (forall d, neos !! d <> Some n) -> linked_of neos h n l = [].
Proof.
  intros Hnot. unfold linked_of. induction l as [|a l IH]; [done|].
  rewrite filter_cons, IH. rewrite decide_False; [done|].
  unfold target. destruct (ca_objs h !! a); [apply Hnot|done].
Qed.

(** X7.  Construction appends to a body, after the approaches it had,
    the approaches of the collection whose [_designation] is the body's
    designation, all of them and in the order of the collection; this
    for every body that no later body of the collection shares its
    designation with. *)
Theorem body_gets_its_approaches_in_order h l1 n l2 events b :
  well_typed h (l1 ++ n :: l2) events ->
  neo_objs h !! n = Some b ->
  (forall m bm, m ∈ l2 -> neo_objs h !! m = Some bm ->
     designation bm <> designation b) ->
  exists db h',
    NEODatabase_init (l1 ++ n :: l2) events h = Ok (db, h') /\
    approaches <$> neo_objs h' !! n
    = Some (approaches b
            ++ filter (fun a => des_of h a = Some (designation b)) events).
Proof.
  intros Hwt Hb Hl2.
  destruct (init_built _ _ _ Hwt) as (db & h' & Hrun & Hbuilt).
  exists db, h'. split; [done|].
  assert (Hn : neo_by_designation db !! designation b = Some n).
  { destruct Hbuilt as (_ & Hd & _). rewrite Hd.
    by apply (last_with_last designation). }
  rewrite <- (linked_of_by_designation _ _ _ _ _ _ _ Hbuilt Hb Hn).
  destruct Hbuilt as (_ & _ & _ & Hbody & _). by rewrite Hbody, Hb.
Qed.

(** X8.  A body that a later, different body of the collection shares
    its designation with is left as it was: it gets none of the
    approaches. *)
Theorem shadowed_body_unchanged h l1 n l2 events b m bm :
  well_typed h (l1 ++ n :: l2) events ->
  neo_objs h !! n = Some b ->
  n ∉ l2 ->
  m ∈ l2 ->
  neo_objs h !! m = Some bm ->
  designation bm = designation b ->
  exists db h',
    NEODatabase_init (l1 ++ n :: l2) events h = Ok (db, h') /\
    neo_objs h' !! n = Some b.
Proof.
  intros Hwt Hb Hn_out Hm Hbm Hsame.
  destruct (init_built _ _ _ Hwt) as (db & h' & Hrun & Hbuilt).
  exists db, h'. split; [done|].
  assert (Hnot : forall d, neo_by_designation db !! d <> Some n).
  { intros d Hd.
    destruct (built_resolves _ _ _ _ _ _ _ Hbuilt Hd) as [_ Hdes].
    rewrite Hb in Hdes. simpl in Hdes. injection Hdes as <-.
    destruct Hbuilt as (_ & Hlast & _). rewrite Hlast, last_with_app in Hd.
    cbn [last_with] in Hd.
    destruct (last_with designation h (designation b) l2) as [k|] eqn:Hk.
    - injection Hd as ->. apply last_with_Some in Hk as [Hin _]. done.
    - rewrite last_with_None in Hk. by apply (Hk m bm). }
  destruct Hbuilt as (_ & _ & _ & Hbody & _). rewrite Hbody, Hb. simpl.
  f_equal. unfold relinked_body. rewrite linked_of_none by done.
  by rewrite app_nil_r, with_approaches_id.
Qed.

(** X9.  Construction changes nothing but the [approaches] of bodies
    and the [neo] of the approaches of the collection: every body keeps
    its designation, name, hazard flag and diameter, every approach its
    [_designation], time, distance and velocity, no object is created or
    lost, and an approach outside the collection is left as it was. *)
Theorem construction_preserves_fields h neos events :
  well_typed h neos events ->
  exists db h',
    NEODatabase_init neos events h = Ok (db, h') /\
    (forall n,
       match neo_objs h !! n, neo_objs h' !! n with
       | Some b, Some b' =>
           designation b' = designation b /\ name b' = name b /\
           hazardous b' = hazardous b /\ diameter b' = diameter b
       | None, None => True
       | _, _ => False
       end) /\
    (forall a,
       match ca_objs h !! a, ca_objs h' !! a with
       | Some o, Some o' =>
           _designation o' = _designation o /\ time o' = time o /\
           distance o' = distance o /\ velocity o' = velocity o /\
           (a ∉ events -> o' = o)
       | None, None => True
       | _, _ => False
       end).
Proof.
  intros Hwt.
  destruct (init_built _ _ _ Hwt) as (db & h' & Hrun & Hbuilt).
  exists db, h'. split; [done|].
  destruct Hbuilt as (_ & _ & _ & Hbody & Hca & _). split.
  - intros n. rewrite Hbody. by destruct (neo_objs h !! n).
  - intros a. rewrite Hca. destruct (ca_objs h !! a) as [o|]; [|done].
    simpl. unfold relink. case_decide; simpl; repeat split; done.
Qed.

(** X10.  The list [_neos] of the database holds, approach by approach
    and in the order of the collection, what the [neo] of the approach
    is after linking. *)
Theorem neos_field_lists_links h neos events :
  well_typed h neos events ->
  exists db h',
    NEODatabase_init neos events h = Ok (db, h') /\
    length (_neos db) = length events /\
    forall i a,
      events !! i = Some a ->
      exists o, ca_objs h' !! a = Some o /\ _neos db !! i = Some (neo o).
Proof.
  intros Hwt.
  destruct (init_built _ _ _ Hwt) as (db & h' & Hrun & Hbuilt).
  exists db, h'. split; [done|].
  pose proof Hbuilt as (_ & _ & _ & _ & _ & Hneos).
  split; [by rewrite Hneos, length_fmap|].
  intros i a Hi.
  destruct Hwt as [_ Hcas]. rewrite Forall_forall in Hcas.
  assert (Hin : a ∈ events) by (by eapply list_elem_of_lookup_2).
  destruct (Hcas a Hin) as [o0 Ho0].
  rewrite (built_ca _ _ _ _ _ _ _ Hbuilt Hin Ho0).
  eexists. split; [done|].
  rewrite Hneos, list_lookup_fmap, Hi. simpl. unfold target. by rewrite Ho0.
Qed.

(** X11.  Building a database a second time from the collections a
    first construction has linked succeeds, gives the same two
    dictionaries, and appends to every body once more what the first
    construction appended. *)
Theorem construction_twice_doubles h neos events :
  well_typed h neos events ->
  exists db1 h1 db2 h2,
    NEODatabase_init neos events h = Ok (db1, h1) /\
    NEODatabase_init neos events h1 = Ok (db2, h2) /\
    neo_by_designation db2 = neo_by_designation db1 /\
    neo_by_name db2 = neo_by_name db1 /\
    forall n b,
      neo_objs h !! n = Some b ->
      exists added,
        approaches <$> neo_objs h1 !! n = Some (approaches b ++ added) /\
        approaches <$> neo_objs h2 !! n
        = Some (approaches b ++ added ++ added).
Proof.
  intros Hwt.
  destruct (init_built _ _ _ Hwt) as (db1 & h1 & Hrun1 & Hb1).
  pose proof Hb1 as (_ & Hd1 & Hn1 & Hbody1 & Hca1 & _).
  assert (Hwt1 : well_typed h1 neos events).
  { destruct Hwt as [Hneos Hcas]. split.
    - eapply Forall_impl; [exact Hneos|]. intros n [b Hb]. simpl.
      rewrite Hbody1, Hb. simpl. eauto.
    - eapply Forall_impl; [exact Hcas|]. intros a [o Ho]. simpl.
      rewrite Hca1, Ho. simpl. eauto. }
  destruct (init_built _ _ _ Hwt1) as (db2 & h2 & Hrun2 & Hb2).
  destruct Hb2 as (_ & Hd2 & Hn2 & Hbody2 & _).
  exists db1, h1, db2, h2. split; [done|]. split; [done|].
  assert (Hdes : neo_by_designation db2 = neo_by_designation db1).
  { apply map_eq. intros d. rewrite Hd2, Hd1.
    apply last_with_ext. intros n. rewrite Hbody1.
    by destruct (neo_objs h !! n). }
  split; [done|]. split.
  { apply map_eq. intros k. rewrite Hn2, Hn1.
    apply last_with_ext. intros n. rewrite Hbody1.
    by destruct (neo_objs h !! n). }
  intros n b Hb.
  exists (linked_of (neo_by_designation db1) h n events).
  split; [by rewrite Hbody1, Hb|].
  rewrite Hbody2, Hbody1, Hb. simpl. f_equal.
  rewrite Hdes. rewrite <- app_assoc.
  rewrite (linked_of_ext (neo_by_designation db1) h h1); [done|].
  intros a. unfold target. rewrite Hca1.
  destruct (ca_objs h !! a) as [o|]; [|done]. simpl.
  unfold relink. by case_decide.
Qed.

(** ** More on queries *)

Lemma scan_first ev pre a post :
  Forall (fun x => (ev x).1 = false) pre ->
  (ev a).1 = true ->
  scan ev (pre ++ a :: post)
  = (Some a, S (length pre), flat_map (fun x => (ev x).2) (pre ++ [a])).
Proof.
  intros Hpre Ha. induction Hpre as [|x pre Hx Hpre IH]; simpl.
  - destruct (ev a) as [b t]. simpl in Ha. subst b. by rewrite app_nil_r.
  - destruct (ev x) as [b t]. simpl in Hx. subst b. simpl.
    simpl in IH. by rewrite IH.
Qed.

Lemma all_hold_eval filters a :
  (eval_filters 0 filters a).1 = all_hold filters a.
Proof. apply eval_filters_forallb. Qed.

(** X12.  A generator of [query] that has been consumed to its end is
    not restarted: asking it again yields nothing, calls no predicate
    and changes nothing. *)
Theorem exhausted_generator_stays_empty db filters gs fuel :
  length (_approaches db) < fuel ->
  exists out calls gs',
    consume fuel (query db filters gs).1 (query db filters gs).2
      = Some (out, calls, gs') /\
    gen_next (query db filters gs).1 gs' = Some (None, [], gs') /\
    forall fuel',
      consume (S fuel') (query db filters gs).1 gs' = Some ([], [], gs').
Proof.
  intros Hfuel. eexists _, _, _.
  split; [exact (consume_created db filters _ _ fuel
                   (query_lookup db filters gs) Hfuel)|].
  assert (Hdone : <[(query db filters gs).1 := GenDone]>
                    (query db filters gs).2 !! (query db filters gs).1
                  = Some GenDone).
  { apply list_lookup_insert_eq. eapply lookup_lt_Some, query_lookup. }
  split.
  - unfold gen_next. by rewrite Hdone.
  - intros fuel'. by apply consume_done.
Qed.

(** X13.  The first request to a new generator calls the predicates on
    the stored approaches only up to the first of which all hold, which
    it yields; the approaches behind it are not looked at and are what
    the generator goes on with. *)
Theorem first_next_is_lazy db filters gs pre a post :
  _approaches db = pre ++ a :: post ->
  Forall (fun x => all_hold filters x = false) pre ->
  all_hold filters a = true ->
  exists it',
    gen_next (query db filters gs).1 (query db filters gs).2
      = Some (Some a,
              flat_map
                (fun x => (fun i => (i, x)) <$>
                   seq 0 (min (length filters) (S (leading_true filters x))))
                (pre ++ [a]),
              <[(query db filters gs).1 := GenSuspended it']>
                (query db filters gs).2) /\
    iter_rest it' = post.
Proof.
  intros Hstored Hpre Ha.
  unfold gen_next. rewrite query_lookup. cbn [gen_iter].
  rewrite py_next_total, iter_rest_query_body, Hstored.
  rewrite (scan_first _ pre a post).
  - eexists. split.
    + f_equal. f_equal. f_equal. apply flat_map_ext. intros x.
      rewrite iter_eval_query_body. apply eval_filters_calls.
    + rewrite iter_rest_advance, iter_rest_query_body, Hstored.
      replace (S (length pre)) with (length (pre ++ [a]))
        by (rewrite length_app; simpl; lia).
      rewrite (cons_middle a pre post), app_assoc.
      by rewrite drop_app_length.
  - eapply Forall_impl; [exact Hpre|]. intros x Hx. simpl.
    by rewrite iter_eval_query_body, all_hold_eval.
  - by rewrite iter_eval_query_body, all_hold_eval.
Qed.

Lemma all_hold_Permutation fs fs' a :
  fs ≡ₚ fs' -> all_hold fs a = all_hold fs' a.
Proof.
  unfold all_hold. induction 1 as [|p fs fs' _ IH|p q fs|fs1 fs2 fs3 _ IH1 _ IH2];
    simpl; [done|by rewrite IH| |congruence].
  destruct (p a), (q a); done.
Qed.

(** X14.  The order of the predicates does not change what a query
    yields: two collections of the same predicates in different orders
    give the same approaches. *)
Theorem predicate_order_keeps_output db fs fs' gs fuel :
  fs ≡ₚ fs' ->
  length (_approaches db) < fuel ->
  exists out calls calls' gs1 gs2,
    consume fuel (query db fs gs).1 (query db fs gs).2
      = Some (out, calls, gs1) /\
    consume fuel (query db fs' gs).1 (query db fs' gs).2
      = Some (out, calls', gs2).
Proof.
  intros Hperm Hfuel. eexists _, _, _, _, _.
  split; [exact (consume_created db fs _ _ fuel
                   (query_lookup db fs gs) Hfuel)|].
  rewrite (consume_created db fs' _ _ fuel (query_lookup db fs' gs) Hfuel).
  f_equal. f_equal. f_equal. apply filter_ext. intros a.
  symmetry. by apply all_hold_Permutation.
Qed.

Lemma filter_filter_all_hold fs1 fs2 (l : list loc) :
  List.filter (all_hold (fs1 ++ fs2)) l
  = List.filter (all_hold fs2) (List.filter (all_hold fs1) l).
Proof.
  induction l as [|a l IH]; [done|]. simpl.
  unfold all_hold at 1. rewrite forallb_app. fold (all_hold fs1 a).
  fold (all_hold fs2 a). destruct (all_hold fs1 a); simpl.
  - destruct (all_hold fs2 a); by rewrite IH.
  - done.
Qed.

Lemma sublist_filter (f : loc -> bool) l : sublist (List.filter f l) l.
Proof.
  induction l as [|a l IH]; simpl; [constructor|].
  destruct (f a); by constructor.
Qed.

(** X15.  Further predicates only narrow a query: with the predicates
    [fs1] followed by [fs2] it yields what is left of the approaches
    yielded with [fs1] alone when those failing a predicate of [fs2] are
    taken out, in the same order; what a query yields is always a
    sublist of the stored approaches. *)
Theorem more_predicates_narrow db fs1 fs2 gs fuel :
  length (_approaches db) < fuel ->
  exists out1 out12 calls1 calls12 gs1 gs12,
    consume fuel (query db fs1 gs).1 (query db fs1 gs).2
      = Some (out1, calls1, gs1) /\
    consume fuel (query db (fs1 ++ fs2) gs).1 (query db (fs1 ++ fs2) gs).2
      = Some (out12, calls12, gs12) /\
    out12 = List.filter (fun a => forallb (fun p => p a) fs2) out1 /\
    sublist out12 out1 /\
    sublist out1 (_approaches db).
Proof.
  intros Hfuel. eexists _, _, _, _, _, _.
  split; [exact (consume_created db fs1 _ _ fuel
                   (query_lookup db fs1 gs) Hfuel)|].
  split; [exact (consume_created db (fs1 ++ fs2) _ _ fuel
                   (query_lookup db (fs1 ++ fs2) gs) Hfuel)|].
  split; [apply filter_filter_all_hold|].
  split; [|apply sublist_filter].
  rewrite (filter_filter_all_hold fs1 fs2). apply sublist_filter.
Qed.

Lemma first_false_everywhere p rest (l : list loc) :
  Forall (fun a => p a = false) l ->
  List.filter (fun a => forallb (fun q => q a) (p :: rest)) l = [] /\
  flat_map (fun a => (eval_filters 0 (p :: rest) a).2) l
  = (fun a => (0, a)) <$> l.
Proof.
  induction 1 as [|a l Ha _ [IH1 IH2]]; [done|]. split.
  - cbn [List.filter forallb]. by rewrite Ha.
  - cbn [flat_map]. rewrite IH2. cbn [eval_filters]. by rewrite Ha.
Qed.

(** X16.  When the first predicate holds of no stored approach, the
    query yields nothing, and no other predicate is ever called: the
    first one is called once on each stored approach, in order. *)
Theorem first_predicate_false_stops_all db p rest gs fuel :
  Forall (fun a => p a = false) (_approaches db) ->
  length (_approaches db) < fuel ->
  exists gs',
    consume fuel (query db (p :: rest) gs).1 (query db (p :: rest) gs).2
      = Some ([], (fun a => (0, a)) <$> _approaches db, gs').
Proof.
  intros Hfalse Hfuel. eexists.
  rewrite (consume_created db (p :: rest) _ _ fuel
             (query_lookup db (p :: rest) gs) Hfuel).
  destruct (first_false_everywhere p rest _ Hfalse) as [-> ->]. done.
Qed.

(** ** More on serialisation, and the writers *)

Lemma CloseApproach_init_neo py_float cd_to_datetime des cd dist v o :
  CloseApproach_init py_float cd_to_datetime des cd dist v = Ok o ->
  forall n, neo o <> NeoRef n.
Proof.
  unfold CloseApproach_init.
  destruct (cd_to_datetime cd); [|done].
  destruct (py_float dist); [|done]. destruct (py_float v); [|done].
  intros [= <-] n. simpl. by destruct (validate_des des) as [[]|].
Qed.

Section WriterFacts.

Variable datetime_to_str : datetime -> string.


Lemma csv_record_shape h a r :
  serialize datetime_to_str h a (VStr "csv") = Ok r ->
  exists d,
    r = SDict d /\
    d.*1 = fieldnames /\
    dict_to_list fieldnames (SStr "") r = Ok d.*2.
Proof.
  unfold serialize. destruct (ca_objs h !! a) as [o|]; [|done]. simpl.
  destruct (neo_of h o) as [b|]; [|done].
  intros [= <-]. eexists. split; [done|]. split; [done|]. done.
Qed.

Lemma linked_in_serialises h a :
  linked_in h a ->
  (exists d, serialize datetime_to_str h a (VStr "csv") = Ok (SDict d)) /\
  (exists doc, serialize datetime_to_str h a (VStr "json") = Ok doc).
Proof.
  intros (o & n & b & Ho & Hneo & Hb). unfold serialize, neo_of.
  rewrite Ho, Hneo, Hb. simpl. eauto.
Qed.

(** X17.  An approach that has not been linked, whether its [neo] is
    still the designation string the constructor stored or [None],
    cannot be serialised: the kinds ['csv'] and ['json'] both raise
    [AttributeError]. *)
Theorem serialize_needs_link h a :
  unlinked_in h a ->
  serialize datetime_to_str h a (VStr "csv") = Raise AttributeError /\
  serialize datetime_to_str h a (VStr "json") = Raise AttributeError.
Proof.
  intros (o & Ho & Hneo). unfold serialize, neo_of. rewrite Ho.
  cbn [py_eq_str String.eqb Ascii.eqb Bool.eqb].
  destruct (neo o) as [|s|n] eqn:Hfield.
  - done.
  - done.
  - by destruct (Hneo n).
Qed.

(** X18.  Once the database is built, an approach of the collection
    serialises as ['csv'] exactly when the lookup by designation finds a
    body for its [_designation]; the record then carries that
    designation, and its keys are the field names of [write_to_csv].
    Otherwise [AttributeError] is raised. *)
Theorem serialize_after_construction h neos events :
  well_typed h neos events ->
  exists db h',
    NEODatabase_init neos events h = Ok (db, h') /\
    forall a o,
      a ∈ events ->
      ca_objs h !! a = Some o ->
      match get_neo_by_designation db (VStr (_designation o)) with
      | Some n =>
          exists d,
            serialize datetime_to_str h' a (VStr "csv") = Ok (SDict d) /\
            assoc_get "designation" d = Some (SStr (_designation o)) /\
            d.*1 = fieldnames
      | None =>
          serialize datetime_to_str h' a (VStr "csv") = Raise AttributeError
      end.
Proof.
  intros Hwt.
  destruct (init_built _ _ _ Hwt) as (db & h' & Hrun & Hbuilt).
  exists db, h'. split; [done|].
  intros a o Hin Ho.
  pose proof (built_ca _ _ _ _ _ _ _ Hbuilt Hin Ho) as Ho'.
  rewrite get_neo_by_designation_lookup.
  destruct (neo_by_designation db !! _designation o) as [n|] eqn:Hn.
  - destruct (built_resolves _ _ _ _ _ _ _ Hbuilt Hn) as [_ Hdes].
    destruct Hbuilt as (_ & _ & _ & Hbody & _).
    destruct (neo_objs h !! n) as [b|] eqn:Hb; [|done].
    simpl in Hdes. injection Hdes as Hdes.
    eexists. unfold serialize, neo_of. rewrite Ho'. simpl.
    rewrite Hbody, Hb. simpl. split; [done|]. split; [|done].
    simpl. by rewrite Hdes.
  - unfold serialize, neo_of. by rewrite Ho'.
Qed.

(** X19.  [csv.DictWriter] takes every record that [serialize] returns
    for the kind ['csv']: the keys of the record are the field names of
    [write_to_csv], in their order, so no [ValueError] is raised for an
    extra key and no cell is filled with the default. *)
Theorem csv_record_fits_fieldnames h a r :
  serialize datetime_to_str h a (VStr "csv") = Ok r ->
  exists d,
    r = SDict d /\
    d.*1 = fieldnames /\
    dict_to_list fieldnames (SStr "") r = Ok d.*2.
Proof.
  unfold serialize. destruct (ca_objs h !! a) as [o|]; [|done].
  cbn [py_eq_str String.eqb Ascii.eqb Bool.eqb].
  destruct (neo_of h o) as [b|e]; [|done].
  intros [= <-]. eexists. split; [reflexivity|].
  split; [reflexivity|]. reflexivity.
Qed.

Lemma linked_in_csv h a :
  linked_in h a ->
  exists d,
    serialize datetime_to_str h a (VStr "csv") = Ok (SDict d) /\
    dict_to_list fieldnames (SStr "") (SDict d) = Ok d.*2.
Proof.
  intros Ha. destruct (linked_in_serialises h a Ha) as [[d Hcsv] _].
  exists d. split; [done|].
  destruct (csv_record_shape h a _ Hcsv) as (d' & [= <-] & _ & Hcells).
  done.
Qed.

Lemma write_rows_linked h results : forall written,
  Forall (linked_in h) results ->
  exists rows,
    write_rows datetime_to_str h results written = (written ++ rows, Ok tt) /\
    Forall2 (fun a row =>
               exists d,
                 serialize datetime_to_str h a (VStr "csv") = Ok (SDict d) /\
                 row = d.*2)
      results rows.
Proof.
  induction results as [|a results IH]; intros written Hall.
  - exists []. split; [by rewrite app_nil_r|constructor].
  - apply Forall_cons in Hall as [Ha Hall].
    destruct (linked_in_csv h a Ha) as (d & Hser & Hcells).
    destruct (IH (written ++ [d.*2]) Hall) as (rows & Hrun & Hrows).
    exists (d.*2 :: rows). split.
    + cbn [write_rows]. rewrite Hser, Hcells, Hrun.
      by rewrite <- app_assoc.
    + constructor; [eauto|done].
Qed.

(** X20.  [write_to_csv] on approaches that are all linked returns
    normally and leaves in the file the header and then one row per
    approach, in the order of the approaches; the cells of a row are
    the values of the approach's ['csv'] record. *)
Theorem write_to_csv_linked h results :
  Forall (linked_in h) results ->
  exists rows,
    write_to_csv datetime_to_str h results
      = ((SStr <$> fieldnames) :: rows, Ok tt) /\
    Forall2 (fun a row =>
               exists d,
                 serialize datetime_to_str h a (VStr "csv") = Ok (SDict d) /\
                 row = d.*2)
      results rows.
Proof.
  intros Hall. unfold write_to_csv.
  destruct (write_rows_linked h results [SStr <$> fieldnames] Hall)
    as (rows & Hrun & Hrows).
  exists rows. by rewrite Hrun.
Qed.


Lemma collect_json_app h pre rest : forall json_data,
  Forall (linked_in h) pre ->
  exists docs,
    length docs = length pre /\
    collect_json datetime_to_str h (pre ++ rest) json_data
    = collect_json datetime_to_str h rest (json_data ++ docs) /\
    Forall2 (fun a doc =>
               serialize datetime_to_str h a (VStr "json") = Ok doc)
      pre docs.
Proof.
  induction pre as [|a pre IH]; intros json_data Hall.
  - exists []. rewrite app_nil_r. repeat split; constructor.
  - apply Forall_cons in Hall as [Ha Hall].
    destruct (linked_in_serialises h a Ha) as [_ [doc Hjson]].
    destruct (IH (json_data ++ [doc]) Hall) as (docs & Hlen & Hrun & Hdocs).
    exists (doc :: docs). split; [simpl; by rewrite Hlen|]. split.
    + cbn [app collect_json]. rewrite Hjson, Hrun.
      by rewrite <- app_assoc.
    + by constructor.
Qed.


(** X22.  [write_to_json] on approaches that are all linked returns
    normally and leaves in the file a list with the ['json'] record of
    each approach, in the order of the approaches. *)
Theorem write_to_json_linked h results :
  Forall (linked_in h) results ->
  exists docs,
    write_to_json datetime_to_str h results = (Some docs, Ok tt) /\
    Forall2 (fun a doc =>
               serialize datetime_to_str h a (VStr "json") = Ok doc)
      results docs.
Proof.
  intros Hall.
  destruct (collect_json_app h results [] [] Hall)
    as (docs & _ & Hrun & Hdocs).
  exists docs. split; [|done].
  unfold write_to_json. rewrite <- (app_nil_r results), Hrun. done.
Qed.

End WriterFacts.

(** ** Texts of a body *)

Lemma append_inj (p s t : string) : (p +:+ s = p +:+ t)%string -> s = t.
Proof. induction p as [|c p IH]; simpl; [done|]. intros [= H]. auto. Qed.

Lemma append_grows (p s : string) : s <> "" -> (p +:+ s)%string <> p.
Proof.
  intros Hs. induction p as [|c p IH]; simpl; [done|]. intros [= H]. auto.
Qed.

(** X23.  The full name of a constructed body is its bare designation
    exactly when the text of the raw name is empty; otherwise it is the
    designation, a blank and that text. *)
Theorem fullname_of_constructed py_float pdes nm pha dia :
  (fullname (NearEarthObject_init py_float pdes nm pha dia) = py_str pdes
   <-> py_str nm = "") /\
  fullname (NearEarthObject_init py_float pdes nm pha dia)
  = if String.eqb (py_str nm) ""
    then py_str pdes
    else (py_str pdes +:+ " " +:+ py_str nm)%string.
Proof.
  unfold fullname, NearEarthObject_init. cbn [name designation py_truthy].
  destruct (String.eqb (py_str nm) "") eqn:He; simpl.
  - apply String.eqb_eq in He. done.
  - apply String.eqb_neq in He. split; [|done]. split; [|done].
    intros Hfull. by apply append_grows in Hfull.
Qed.

Section FormattingFacts.

Variable fmt3 : pyfloat -> string.

(** X24.  A constructed body reports "an unknown diameter" exactly when
    the raw diameter is empty or otherwise false, when [float] rejects
    it, or when [float] reads it as NaN. *)
Theorem known_diameter_unknown_iff py_float pdes nm pha dia :
  known_diameter fmt3 (NearEarthObject_init py_float pdes nm pha dia)
  = "an unknown diameter"
  <-> py_truthy dia = false \/
      (exists e, py_float dia = Raise e) \/
      py_float dia = Ok S754_nan.
Proof.
  unfold known_diameter, NearEarthObject_init, validate_dia.
  cbn [diameter]. destruct (py_truthy dia); simpl.
  - destruct (py_float dia) as [d|e] eqn:Hf; simpl.
    + destruct d as [sg|sg| |sg mant ex]; simpl; split; try done;
        try (by right; right); by intros [?|[[exn ?]|?]].
    + split; [|done]. intros _. right. left. eauto.
  - split; [|done]. intros _. by left.
Qed.

(** X25.  The text of a constructed body ends in " and is potentially
    hazardous." exactly when the raw hazard flag is the string ['Y'];
    otherwise it ends in " and is not potentially hazardous."; up to
    there the two texts are the same. *)
Theorem str_tells_hazard py_float pdes nm pha dia :
  let b := NearEarthObject_init py_float pdes nm pha dia in
  (NearEarthObject_str fmt3 b
   = (NearEarthObject_str_head fmt3 b
      +:+ " and is potentially hazardous.")%string
   <-> pha = VStr "Y") /\
  (NearEarthObject_str fmt3 b
   = (NearEarthObject_str_head fmt3 b
      +:+ " and is not potentially hazardous.")%string
   <-> pha <> VStr "Y").
Proof.
  intros b. unfold NearEarthObject_str.
  assert (Hh : hazardous b = true <-> pha = VStr "Y").
  { unfold b. simpl. unfold handle_hazard. rewrite <- py_eq_str_true.
    by destruct (py_eq_str pha "Y"). }
  destruct (hazardous b).
  - split; split; try done.
    + intros _. by apply Hh.
    + intros Heq. by apply append_inj in Heq.
    + intros Hne. destruct Hne. by apply Hh.
  - split; split; try done.
    + intros Heq. by apply append_inj in Heq.
    + intros HY. apply Hh in HY. done.
    + intros _ HY. apply Hh in HY. done.
Qed.

End FormattingFacts.

(** ** Instances of the further properties *)

Lemma scenario_later_designation m bm :
  m ∈ [2] -> neo_objs Scenario.heap0 !! m = Some bm ->
  designation bm <> designation Scenario.eros.
Proof.
  intros Hm. apply list_elem_of_singleton in Hm as ->.
  by intros [= <-].
Defined.

Lemma scenario_later_name m bm :
  m ∈ [2] -> neo_objs Scenario.heap0 !! m = Some bm ->
  name bm <> Some "Eros".
Proof.
  intros Hm. apply list_elem_of_singleton in Hm as ->.
  by intros [= <-].
Defined.

Lemma get_neo_by_designation_finds_last_witness :
  exists db h',
    NEODatabase_init ([] ++ 1 :: [2]) Scenario.events Scenario.heap0
      = Ok (db, h') /\
    get_neo_by_designation db (VStr "2000433") = Some 1 /\
    designation <$> neo_objs h' !! 1 = Some "2000433".
Proof.
  exact (get_neo_by_designation_finds_last Scenario.heap0 [] 1 [2]
           Scenario.events Scenario.eros scenario_well_typed eq_refl
           scenario_later_designation).
Defined.


Lemma get_neo_by_name_finds_last_witness :
  exists db h',
    NEODatabase_init ([] ++ 1 :: [2]) Scenario.events Scenario.heap0
      = Ok (db, h') /\
    get_neo_by_name db (VStr "Eros") = Some 1 /\
    name <$> neo_objs h' !! 1 = Some (Some "Eros").
Proof.
  exact (get_neo_by_name_finds_last Scenario.heap0 [] 1 [2]
           Scenario.events Scenario.eros "Eros" scenario_well_typed
           eq_refl eq_refl scenario_later_name).
Defined.

Lemma get_neo_by_name_miss_witness :
  exists db h',
    NEODatabase_init Scenario.bodies Scenario.events Scenario.heap0
      = Ok (db, h') /\
    (forall s,
       get_neo_by_name db (VStr s) = None <->
       forall n b, n ∈ Scenario.bodies ->
         neo_objs Scenario.heap0 !! n = Some b -> name b <> Some s) /\
    (forall b, get_neo_by_name db (VBool b) = None) /\
    (forall z, get_neo_by_name db (VInt z) = None).
Proof.
  exact (get_neo_by_name_miss Scenario.heap0 Scenario.bodies
           Scenario.events scenario_well_typed).
Defined.

Lemma scenario_unnamed_alone :
  well_typed Scenario.heap0 [2] Scenario.events.
Proof. split; repeat constructor; by eexists. Defined.

Lemma scenario_unnamed_made n b :
  n ∈ [2] -> neo_objs Scenario.heap0 !! n = Some b ->
  exists pdes nm pha dia,
    b = NearEarthObject_init (fun _ => Raise ValueError) pdes nm pha dia.
Proof.
  intros Hn. apply list_elem_of_singleton in Hn as ->. intros [= <-].
  by exists (VStr "2019 SC8"), (VStr ""), (VStr "N"), (VStr "").
Defined.

Lemma get_neo_by_name_empty_string_witness :
  exists db h',
    NEODatabase_init [2] Scenario.events Scenario.heap0 = Ok (db, h') /\
    get_neo_by_name db (VStr "") = None.
Proof.
  exact (get_neo_by_name_empty_string (fun _ => Raise ValueError)
           Scenario.heap0 [2] Scenario.events scenario_unnamed_alone
           scenario_unnamed_made).
Defined.

Lemma link_agrees_with_lookup_witness :
  exists db h',
    NEODatabase_init Scenario.bodies Scenario.events Scenario.heap0
      = Ok (db, h') /\
    forall a o,
      a ∈ Scenario.events ->
      ca_objs h' !! a = Some o ->
      neo o = field_of (get_neo_by_designation db (VStr (_designation o))).
Proof.
  exact (link_agrees_with_lookup Scenario.heap0 Scenario.bodies
           Scenario.events scenario_well_typed).
Defined.

Lemma body_gets_its_approaches_in_order_witness :
  exists db h',
    NEODatabase_init ([] ++ 1 :: [2]) Scenario.events Scenario.heap0
      = Ok (db, h') /\
    approaches <$> neo_objs h' !! 1
    = Some ([] ++ filter (fun a => des_of Scenario.heap0 a = Some "2000433")
                    Scenario.events).
Proof.
  exact (body_gets_its_approaches_in_order Scenario.heap0 [] 1 [2]
           Scenario.events Scenario.eros scenario_well_typed eq_refl
           scenario_later_designation).
Defined.

Lemma shadowing_well_typed :
  well_typed Shadowing.heap0 ([] ++ 1 :: [3]) Scenario.events.
Proof. split; repeat constructor; by eexists. Defined.

Lemma shadowing_not_later : 1 ∉ [3].
Proof. intros H. by apply list_elem_of_singleton in H. Defined.

Lemma shadowing_later : 3 ∈ [3].
Proof. by apply list_elem_of_singleton. Defined.

Lemma shadowed_body_unchanged_witness :
  exists db h',
    NEODatabase_init ([] ++ 1 :: [3]) Scenario.events Shadowing.heap0
      = Ok (db, h') /\
    neo_objs h' !! 1 = Some Scenario.eros.
Proof.
  exact (shadowed_body_unchanged Shadowing.heap0 [] 1 [3] Scenario.events
           Scenario.eros 3 Shadowing.eros_again shadowing_well_typed
           eq_refl shadowing_not_later shadowing_later eq_refl eq_refl).
Defined.

Lemma construction_preserves_fields_witness :
  exists db h',
    NEODatabase_init Scenario.bodies Scenario.events Scenario.heap0
      = Ok (db, h') /\
    (forall n,
       match neo_objs Scenario.heap0 !! n, neo_objs h' !! n with
       | Some b, Some b' =>
           designation b' = designation b /\ name b' = name b /\
           hazardous b' = hazardous b /\ diameter b' = diameter b
       | None, None => True
       | _, _ => False
       end) /\
    (forall a,
       match ca_objs Scenario.heap0 !! a, ca_objs h' !! a with
       | Some o, Some o' =>
           _designation o' = _designation o /\ time o' = time o /\
           distance o' = distance o /\ velocity o' = velocity o /\
           (a ∉ Scenario.events -> o' = o)
       | None, None => True
       | _, _ => False
       end).
Proof.
  exact (construction_preserves_fields Scenario.heap0 Scenario.bodies
           Scenario.events scenario_well_typed).
Defined.

Lemma neos_field_lists_links_witness :
  exists db h',
    NEODatabase_init Scenario.bodies Scenario.events Scenario.heap0
      = Ok (db, h') /\
    length (_neos db) = 2 /\
    forall i a,
      Scenario.events !! i = Some a ->
      exists o, ca_objs h' !! a = Some o /\ _neos db !! i = Some (neo o).
Proof.
  exact (neos_field_lists_links Scenario.heap0 Scenario.bodies
           Scenario.events scenario_well_typed).
Defined.

Lemma construction_twice_doubles_witness :
  exists db1 h1 db2 h2,
    NEODatabase_init Scenario.bodies Scenario.events Scenario.heap0
      = Ok (db1, h1) /\
    NEODatabase_init Scenario.bodies Scenario.events h1 = Ok (db2, h2) /\
    neo_by_designation db2 = neo_by_designation db1 /\
    neo_by_name db2 = neo_by_name db1 /\
    forall n b,
      neo_objs Scenario.heap0 !! n = Some b ->
      exists added,
        approaches <$> neo_objs h1 !! n = Some (approaches b ++ added) /\
        approaches <$> neo_objs h2 !! n
        = Some (approaches b ++ added ++ added).
Proof.
  exact (construction_twice_doubles Scenario.heap0 Scenario.bodies
           Scenario.events scenario_well_typed).
Defined.

Lemma scenario_fuel : length (_approaches Scenario.db1) < 3.
Proof. simpl. lia. Defined.

Lemma exhausted_generator_stays_empty_witness :
  exists out calls gs',
    consume 3 (query Scenario.db1 [Scenario.is_eros] []).1
      (query Scenario.db1 [Scenario.is_eros] []).2
      = Some (out, calls, gs') /\
    gen_next (query Scenario.db1 [Scenario.is_eros] []).1 gs'
      = Some (None, [], gs') /\
    forall fuel',
      consume (S fuel') (query Scenario.db1 [Scenario.is_eros] []).1 gs'
      = Some ([], [], gs').
Proof.
  exact (exhausted_generator_stays_empty Scenario.db1 [Scenario.is_eros]
           [] 3 scenario_fuel).
Defined.

Lemma first_next_is_lazy_witness :
  exists it',
    gen_next (query Scenario.db1 [Scenario.always; Scenario.is_eros] []).1
      (query Scenario.db1 [Scenario.always; Scenario.is_eros] []).2
    = Some (Some 11, [(0, 11); (1, 11)], [GenSuspended it']) /\
    iter_rest it' = [12].
Proof.
  exact (first_next_is_lazy Scenario.db1
           [Scenario.always; Scenario.is_eros] [] [] 11 [12]
           eq_refl (Forall_nil_2 _) eq_refl).
Defined.

Lemma predicate_order_keeps_output_witness :
  exists out calls calls' gs1 gs2,
    consume 3
      (query Scenario.db1 [Scenario.always; Scenario.is_eros] []).1
      (query Scenario.db1 [Scenario.always; Scenario.is_eros] []).2
      = Some (out, calls, gs1) /\
    consume 3
      (query Scenario.db1 [Scenario.is_eros; Scenario.always] []).1
      (query Scenario.db1 [Scenario.is_eros; Scenario.always] []).2
      = Some (out, calls', gs2).
Proof.
  exact (predicate_order_keeps_output Scenario.db1
           [Scenario.always; Scenario.is_eros]
           [Scenario.is_eros; Scenario.always] [] 3
           (perm_swap _ _ _) scenario_fuel).
Defined.

Lemma more_predicates_narrow_witness :
  exists out1 out12 calls1 calls12 gs1 gs12,
    consume 3 (query Scenario.db1 [Scenario.always] []).1
      (query Scenario.db1 [Scenario.always] []).2
      = Some (out1, calls1, gs1) /\
    consume 3
      (query Scenario.db1 ([Scenario.always] ++ [Scenario.is_eros]) []).1
      (query Scenario.db1 ([Scenario.always] ++ [Scenario.is_eros]) []).2
      = Some (out12, calls12, gs12) /\
    out12 = List.filter (fun a => forallb (fun p => p a) [Scenario.is_eros])
              out1 /\
    sublist out12 out1 /\
    sublist out1 (_approaches Scenario.db1).
Proof.
  exact (more_predicates_narrow Scenario.db1 [Scenario.always]
           [Scenario.is_eros] [] 3 scenario_fuel).
Defined.

Lemma scenario_never : Forall (fun a : loc => false = false)
                         (_approaches Scenario.db1).
Proof. repeat constructor. Defined.

Lemma first_predicate_false_stops_all_witness :
  exists gs',
    consume 3
      (query Scenario.db1 ((fun _ => false) :: [Scenario.is_eros]) []).1
      (query Scenario.db1 ((fun _ => false) :: [Scenario.is_eros]) []).2
    = Some ([], [(0, 11); (0, 12)], gs').
Proof.
  exact (first_predicate_false_stops_all Scenario.db1 (fun _ => false)
           [Scenario.is_eros] [] 3 scenario_never scenario_fuel).
Defined.

Lemma scenario_11_unlinked : unlinked_in Scenario.heap0 11.
Proof. exists Scenario.ca_eros. split; [reflexivity|]. by intros n. Defined.


Lemma scenario_11_linked : linked_in Scenario.heap1 11.
Proof.
  exists (with_neo (NeoRef 1) Scenario.ca_eros), 1,
    (with_appended 11 Scenario.eros).
  repeat split; reflexivity.
Defined.

Lemma scenario_linked_list : Forall (linked_in Scenario.heap1) [11].
Proof. constructor; [exact scenario_11_linked|constructor]. Defined.

Lemma serialize_needs_link_witness :
  serialize Scenario.datetime_to_str Scenario.heap0 11 (VStr "csv")
    = Raise AttributeError /\
  serialize Scenario.datetime_to_str Scenario.heap0 11 (VStr "json")
    = Raise AttributeError.
Proof.
  exact (serialize_needs_link Scenario.datetime_to_str Scenario.heap0 11
           scenario_11_unlinked).
Defined.

Lemma serialize_after_construction_witness :
  exists db h',
    NEODatabase_init Scenario.bodies Scenario.events Scenario.heap0
      = Ok (db, h') /\
    forall a o,
      a ∈ Scenario.events ->
      ca_objs Scenario.heap0 !! a = Some o ->
      match get_neo_by_designation db (VStr (_designation o)) with
      | Some n =>
          exists d,
            serialize Scenario.datetime_to_str h' a (VStr "csv")
              = Ok (SDict d) /\
            assoc_get "designation" d = Some (SStr (_designation o)) /\
            d.*1 = fieldnames
      | None =>
          serialize Scenario.datetime_to_str h' a (VStr "csv")
          = Raise AttributeError
      end.
Proof.
  exact (serialize_after_construction Scenario.datetime_to_str
           Scenario.heap0 Scenario.bodies Scenario.events
           scenario_well_typed).
Defined.

Lemma csv_record_fits_fieldnames_witness :
  exists d,
    SDict [("datetime_utc", SStr "1900-12-27 01:30");
           ("distance_au", SFloat Scenario.f_0_15);
           ("velocity_km_s", SFloat Scenario.f_17_06);
           ("designation", SStr "2000433");
           ("name", SStr "Eros");
           ("diameter_km", SFloat Scenario.f_16_84);
           ("potentially_hazardous", SBool false)] = SDict d /\
    d.*1 = fieldnames /\
    dict_to_list fieldnames (SStr "")
      (SDict [("datetime_utc", SStr "1900-12-27 01:30");
              ("distance_au", SFloat Scenario.f_0_15);
              ("velocity_km_s", SFloat Scenario.f_17_06);
              ("designation", SStr "2000433");
              ("name", SStr "Eros");
              ("diameter_km", SFloat Scenario.f_16_84);
              ("potentially_hazardous", SBool false)]) = Ok d.*2.
Proof.
  exact (csv_record_fits_fieldnames Scenario.datetime_to_str Scenario.heap1
           11 _ eq_refl).
Defined.

Lemma write_to_csv_linked_witness :
  exists rows,
    write_to_csv Scenario.datetime_to_str Scenario.heap1 [11]
      = ((SStr <$> fieldnames) :: rows, Ok tt) /\
    Forall2 (fun a row =>
               exists d,
                 serialize Scenario.datetime_to_str Scenario.heap1 a
                   (VStr "csv") = Ok (SDict d) /\
                 row = d.*2)
      [11] rows.
Proof.
  exact (write_to_csv_linked Scenario.datetime_to_str Scenario.heap1 [11]
           scenario_linked_list).
Defined.


Lemma write_to_json_linked_witness :
  exists docs,
    write_to_json Scenario.datetime_to_str Scenario.heap1 [11]
      = (Some docs, Ok tt) /\
    Forall2 (fun a doc =>
               serialize Scenario.datetime_to_str Scenario.heap1 a
                 (VStr "json") = Ok doc)
      [11] docs.
Proof.
  exact (write_to_json_linked Scenario.datetime_to_str Scenario.heap1 [11]
           scenario_linked_list).
Defined.
